(** * buildSentiment.js: report-row extraction, decoding and reconciliation

    A shallow embedding of [src/data/scripts/buildSentiment.js].

    - A JavaScript string is the list of its UTF-16 code units ([list N]).
    - [undefined]/[null] are [None]; a thrown [Error] is the [Throw] case of
      [result], carrying the message of the source.
    - A JavaScript number is [number]: a finite binary64 value held as the
      rational it denotes, or an infinity, or NaN.  The sign of zero is not
      tracked (no operation of the script observes it).
    - The Unicode upper-case table used by [String.prototype.toUpperCase] is a
      parameter ([Uppercase_Mapping]) of the definitions that need it. *)

From Stdlib Require Import ZArith NArith QArith String Ascii Lia.
From stdpp Require Import base tactics option list numbers.

Local Open Scope N_scope.

Abbreviation jsstring := (list N) (only parsing).

(** ** String literals and named code units *)

Definition lit (s : string) : jsstring :=
  map N_of_ascii (list_ascii_of_string s).
Arguments lit s%_string.

Definition TAB : N := 9.
Definition LF : N := 10.
Definition CR : N := 13.
Definition SPACE : N := 32.
Definition DQUOTE : N := 34.
Definition PLUS : N := 43.
Definition COMMA : N := 44.
Definition HYPHEN : N := 45.
Definition DOT : N := 46.
Definition SLASH : N := 47.
Definition FIGURE_DASH : N := 0x2012.
Definition EN_DASH : N := 0x2013.
Definition EM_DASH : N := 0x2014.
Definition MINUS_SIGN : N := 0x2212.

(** ** Character classes of the regular expressions *)

(** [\d] *)
Definition isDigit (c : N) : bool := (48 <=? c) && (c <=? 57).

(** [\s], which is also the set removed by [String.prototype.trim]:
    WhiteSpace and LineTerminator of ECMAScript. *)
Definition isWhiteSpace (c : N) : bool :=
  (c =? 9) || (c =? 10) || (c =? 11) || (c =? 12) || (c =? 13) || (c =? 32)
  || (c =? 0xA0) || (c =? 0x1680)
  || ((0x2000 <=? c) && (c <=? 0x200A))
  || (c =? 0x2028) || (c =? 0x2029) || (c =? 0x202F) || (c =? 0x205F)
  || (c =? 0x3000) || (c =? 0xFEFF).

(** [[‒–—−]]: figure dash, en dash, em dash, minus sign. *)
Definition isDashVariant (c : N) : bool :=
  (c =? 0x2012) || (c =? 0x2013) || (c =? 0x2014) || (c =? 0x2212).

(** ** String primitives *)

Fixpoint dropWhile (f : N → bool) (s : jsstring) : jsstring :=
  match s with
  | [] => []
  | c :: r => if f c then dropWhile f r else s
  end.

Fixpoint span (f : N → bool) (s : jsstring) : jsstring * jsstring :=
  match s with
  | [] => ([], [])
  | c :: r => if f c then let '(a, b) := span f r in (c :: a, b) else ([], s)
  end.

Definition trimStart (s : jsstring) : jsstring := dropWhile isWhiteSpace s.

Fixpoint trimEnd (s : jsstring) : jsstring :=
  match s with
  | [] => []
  | c :: r =>
      match trimEnd r with
      | [] => if isWhiteSpace c then [] else [c]
      | r' => c :: r'
      end
  end.

(** [s.trim()] *)
Definition trim (s : jsstring) : jsstring := trimEnd (trimStart s).

(** [s.replace(/[‒–—−]/g,'-')] *)
Definition unifyDashes (s : jsstring) : jsstring :=
  map (λ c, if isDashVariant c then HYPHEN else c) s.

(** [s.replace(/\s+/g,' ')]; [inRun] records that the unit before the cursor
    belongs to a whitespace run already replaced. *)
Fixpoint collapseFrom (inRun : bool) (s : jsstring) : jsstring :=
  match s with
  | [] => []
  | c :: r =>
      if isWhiteSpace c
      then (if inRun then collapseFrom true r else SPACE :: collapseFrom true r)
      else c :: collapseFrom false r
  end.

Definition collapseWhitespace (s : jsstring) : jsstring := collapseFrom false s.

(** The two replacements of [toNumber]: every comma and every double quote
    is removed, then every plus sign. *)
Definition removeCommasQuotes (s : jsstring) : jsstring :=
  List.filter (λ c, negb ((c =? COMMA) || (c =? DQUOTE))) s.
Definition removePluses (s : jsstring) : jsstring :=
  List.filter (λ c, negb (c =? PLUS)) s.

(** [s.slice(a, b)] for [0 <= a <= b]. *)
Definition slice (a b : nat) (s : jsstring) : jsstring := take (b - a) (drop a s).

Fixpoint startsWith (p s : jsstring) : bool :=
  match p, s with
  | [], _ => true
  | a :: p', b :: s' => (a =? b) && startsWith p' s'
  | _ :: _, [] => false
  end.

(** [s.includes(p)] *)
Fixpoint includes (s p : jsstring) : bool :=
  startsWith p s || match s with [] => false | _ :: s' => includes s' p end.

(** [s.split(sep)] for a one-unit separator; [cur] is the piece being read. *)
Fixpoint splitOn (sep : N) (cur s : jsstring) : list jsstring :=
  match s with
  | [] => [cur]
  | c :: r => if c =? sep then cur :: splitOn sep [] r
              else splitOn sep (cur ++ [c]) r
  end.

(** ** toUpperCase *)

Definition isLeadingSurrogate (c : N) : bool := (0xD800 <=? c) && (c <=? 0xDBFF).
Definition isTrailingSurrogate (c : N) : bool := (0xDC00 <=? c) && (c <=? 0xDFFF).

Definition UTF16SurrogatePairToCodePoint (lead trail : N) : N :=
  (lead - 0xD800) * 0x400 + (trail - 0xDC00) + 0x10000.

Fixpoint StringToCodePoints (s : jsstring) : list N :=
  match s with
  | [] => []
  | c :: t =>
      match t with
      | d :: r =>
          if isLeadingSurrogate c && isTrailingSurrogate d
          then UTF16SurrogatePairToCodePoint c d :: StringToCodePoints r
          else c :: StringToCodePoints t
      | [] => [c]
      end
  end.

Definition UTF16EncodeCodePoint (cp : N) : jsstring :=
  if cp <=? 0xFFFF then [cp]
  else [ (cp - 0x10000) / 0x400 + 0xD800 ; (cp - 0x10000) mod 0x400 + 0xDC00 ].

Definition CodePointsToString (cps : list N) : jsstring :=
  flat_map UTF16EncodeCodePoint cps.

Section Normalizer.
(** The Unicode upper-case mapping of a code point (UnicodeData and
    SpecialCasing: one code point may map to several). *)
Variable Uppercase_Mapping : N → list N.

(** [s.toUpperCase()] *)
Definition toUpperCase (s : jsstring) : jsstring :=
  CodePointsToString (flat_map Uppercase_Mapping (StringToCodePoints s)).

(** [norm(s)] *)
Definition norm (s : jsstring) : jsstring :=
  toUpperCase (trim (collapseWhitespace (unifyDashes s))).
End Normalizer.

(** An upper-case table restricted to Basic Latin and Latin-1, with the
    special casing of sharp s; used to run the definitions on examples. *)
Definition latin1_upper (c : N) : list N :=
  if (97 <=? c) && (c <=? 122) then [c - 32]
  else if c =? 0xDF then [83; 83]
  else if c =? 0xB5 then [0x39C]
  else if c =? 0xFF then [0x178]
  else if (0xE0 <=? c) && (c <=? 0xFE) && negb (c =? 0xF7) then [c - 32]
  else [c].


(** ** Numbers *)

Inductive number : Type :=
  | NaN
  | Infinity (negative : bool)
  | Finite (q : Q).

Definition negate (x : number) : number :=
  match x with
  | NaN => NaN
  | Infinity s => Infinity (negb s)
  | Finite q => Finite (- q)
  end.

(** [isFinite(x)] *)
Definition isFinite (x : number) : bool :=
  match x with Finite _ => true | _ => false end.

(** [x < y]; [x > y] is [numLt y x]. *)
Definition numLt (x y : number) : bool :=
  match x, y with
  | NaN, _ | _, NaN => false
  | Infinity true, Infinity true => false
  | Infinity true, _ => true
  | _, Infinity true => false
  | Infinity false, _ => false
  | _, Infinity false => true
  | Finite p, Finite q => (Qnum p * Z.pos (Qden q) <? Qnum q * Z.pos (Qden p))%Z
  end.

(** [x || 0] on numbers: NaN and zero are falsy. *)
Definition orZero (x : number) : number :=
  match x with
  | NaN => Finite 0
  | _ => x
  end.

Local Open Scope Z_scope.

(** The quotient [n / (d * 2^e)] as a fraction of integers. *)
Definition scaleBy (n d e : Z) : Z * Z :=
  if 0 <=? e then (n, d * 2 ^ e) else (n * 2 ^ (- e), d).

(** The binary64 value nearest to [n / d] (ties to even), for [0 <= n] and
    [0 < d]: 53 significant bits, least exponent -1074, overflow above
    [(2^53 - 1) * 2^971]. *)
Definition roundBinary64 (n d : Z) : number :=
  if n =? 0 then Finite 0 else
  let e1 := Z.log2 n - Z.log2 d - 52 in
  let '(a1, b1) := scaleBy n d e1 in
  let e2 := if 2 ^ 52 * b1 <=? a1 then e1 else e1 - 1 in
  let e := Z.max e2 (-1074) in
  let '(a, b) := scaleBy n d e in
  let m := a / b in
  let r := a mod b in
  let m' := if (b <? 2 * r) || ((b =? 2 * r) && Z.odd m) then m + 1 else m in
  if (971 <? e) || ((e =? 971) && (2 ^ 53 <=? m')) then Infinity false
  else Finite (Qred (if 0 <=? e then inject_Z (m' * 2 ^ e)
                     else Qmake m' (Z.to_pos (2 ^ (- e))))).

(** Rounding of an exact rational result of an arithmetic operation. *)
Definition roundQ (q : Q) : number :=
  if Qnum q <? 0 then negate (roundBinary64 (- Qnum q) (Z.pos (Qden q)))
  else roundBinary64 (Qnum q) (Z.pos (Qden q)).

(** [x - y] *)
Definition numSub (x y : number) : number :=
  match x, y with
  | NaN, _ | _, NaN => NaN
  | Infinity a, Infinity b => if Bool.eqb a b then NaN else Infinity a
  | Infinity a, Finite _ => Infinity a
  | Finite _, Infinity b => Infinity (negb b)
  | Finite p, Finite q => roundQ (p - q)
  end.

(** *** StringToNumber (the grammar StringNumericLiteral of ECMAScript) *)

Definition digitsValue (ds : jsstring) : Z :=
  fold_left (λ acc c, 10 * acc + (Z.of_N c - 48)) ds 0.

Definition isDigits1 (s : jsstring) : bool :=
  negb (bool_decide (s = [])) && forallb isDigit s.

(** The value [M * 10^E] of a decimal literal. *)
Definition decimalValue (M E : Z) : number :=
  if 0 <=? E then roundBinary64 (M * 10 ^ E) 1 else roundBinary64 M (10 ^ (- E)).

(** ExponentPart_opt, which must end the literal. *)
Definition exponentPart (s : jsstring) : option Z :=
  match s with
  | [] => Some 0
  | c :: r =>
      if ((c =? 101) || (c =? 69))%N then
        let '(neg, ds) :=
          match r with
          | sg :: r' => if (sg =? PLUS)%N then (false, r')
                        else if (sg =? HYPHEN)%N then (true, r') else (false, r)
          | [] => (false, r)
          end in
        if isDigits1 ds
        then Some (if neg : bool then - digitsValue ds else digitsValue ds)
        else None
      else None
  end.

(** StrUnsignedDecimalLiteral *)
Definition strUnsignedDecimalLiteral (s : jsstring) : number :=
  if bool_decide (s = lit "Infinity") then Infinity false else
  let '(ip, r1) := span isDigit s in
  let '(fp, r2) :=
    match r1 with
    | c :: r => if (c =? DOT)%N then span isDigit r else ([], r1)
    | [] => ([], [])
    end in
  if bool_decide (ip = []) && bool_decide (fp = []) then NaN else
  match exponentPart r2 with
  | Some e => decimalValue (digitsValue (ip ++ fp)) (e - Z.of_nat (length fp))
  | None => NaN
  end.

Definition radixDigit (radix : Z) (c : N) : option Z :=
  let v := if isDigit c then Z.of_N c - 48
           else if ((97 <=? c) && (c <=? 102))%N then Z.of_N c - 87
           else if ((65 <=? c) && (c <=? 70))%N then Z.of_N c - 55
           else radix in
  if v <? radix then Some v else None.

Fixpoint radixValue (radix : Z) (acc : Z) (s : jsstring) : option Z :=
  match s with
  | [] => Some acc
  | c :: r => match radixDigit radix c with
              | Some v => radixValue radix (radix * acc + v) r
              | None => None
              end
  end.

(** NonDecimalIntegerLiteral: [0x], [0o], [0b] and their capitals, followed
    by one digit of the radix at least. *)
Definition nonDecimalIntegerLiteral (s : jsstring) : option Z :=
  match s with
  | z :: p :: (_ :: _) as ds =>
      if (z =? 48)%N then
        if ((p =? 120) || (p =? 88))%N then radixValue 16 0 ds
        else if ((p =? 111) || (p =? 79))%N then radixValue 8 0 ds
        else if ((p =? 98) || (p =? 66))%N then radixValue 2 0 ds
        else None
      else None
  | _ => None
  end.

(** [Number(s)] for a string [s]. *)
Definition StringToNumber (s : jsstring) : number :=
  let t := trim s in
  match t with
  | [] => Finite 0
  | c :: r =>
      match nonDecimalIntegerLiteral t with
      | Some v => roundBinary64 v 1
      | None =>
          if (c =? PLUS)%N then strUnsignedDecimalLiteral r
          else if (c =? HYPHEN)%N then negate (strUnsignedDecimalLiteral r)
          else strUnsignedDecimalLiteral t
      end
  end.

(** [toNumber(v)]; [None] is [null] or [undefined]. *)
Definition toNumber (v : option jsstring) : number :=
  match v with
  | None => Finite 0
  | Some s =>
      let cleaned := trim (removePluses (removeCommasQuotes s)) in
      let n := StringToNumber cleaned in
      if isFinite n then n else Finite 0
  end.

(** ** Thrown errors *)

Inductive error : Type :=
  | Error (message : string)          (* [new Error(message)] *)
  | HttpError (statusCode : Z)        (* [new Error('HTTP '+statusCode)] *)
  | NetworkError                      (* the request's [error] event *)
  | SyntaxError                       (* [JSON.parse] on malformed text *)
  | TypeError.                        (* property access on [undefined] *)

Inductive result (A : Type) : Type :=
  | Return (a : A)
  | Throw (e : error).
Arguments Return {A} a.
Arguments Throw {A} e.

(** ** Date Decoder *)

(** A regular expression [^c1 c2 ... cn$] of single-unit classes. *)
Fixpoint matchClasses (cls : list (N → bool)) (s : jsstring) : bool :=
  match cls, s with
  | [], [] => true
  | f :: cls', c :: s' => f c && matchClasses cls' s'
  | _, _ => false
  end.

Definition isUnit (k : N) : N → bool := N.eqb k.

(** [/^\d{4}-\d{2}-\d{2}$/] *)
Definition reISODate : list (N → bool) :=
  [isDigit; isDigit; isDigit; isDigit; isUnit HYPHEN; isDigit; isDigit;
   isUnit HYPHEN; isDigit; isDigit].

(** [/^\d{6}$/] *)
Definition reYYMMDD : list (N → bool) := repeat isDigit 6.

(** [/^\d{2}\/\d{2}\/\d{2,4}$/]: the year has two, three or four digits. *)
Definition reSlashDate (k : nat) : list (N → bool) :=
  [isDigit; isDigit; isUnit SLASH; isDigit; isDigit; isUnit SLASH] ++ repeat isDigit k.
Definition testSlashDate (s : jsstring) : bool :=
  matchClasses (reSlashDate 2) s || matchClasses (reSlashDate 3) s
  || matchClasses (reSlashDate 4) s.

(** [Number(y) > 70 ? '19' : '20'] *)
Definition century (y : jsstring) : jsstring :=
  if numLt (Finite 70) (StringToNumber y) then lit "19" else lit "20".

(** [toISO(md)] on a string. *)
Definition toISO (md : jsstring) : jsstring :=
  if bool_decide (md = []) then md
  else if matchClasses reISODate md then md
  else if matchClasses reYYMMDD md then
    let yy := slice 0 2 md in
    let mm := slice 2 4 md in
    let dd := slice 4 6 md in
    let year := century yy ++ yy in
    year ++ [HYPHEN] ++ mm ++ [HYPHEN] ++ dd
  else if testSlashDate md then
    match splitOn SLASH [] md with
    | [m; d; yr] =>
        let y := if (length yr =? 2)%nat then century yr ++ yr else yr in
        y ++ [HYPHEN] ++ m ++ [HYPHEN] ++ d
    | _ => md
    end
  else md.

(** ** CSV parsing *)

Record csvState : Type := {
  out : list jsstring;
  cur : jsstring;
  inQuotes : bool
}.

(** One iteration of the loop of [parseCSVLine]. *)
Definition csvStep (st : csvState) (ch : N) : csvState :=
  if (ch =? DQUOTE)%N then
    {| out := out st; cur := cur st; inQuotes := negb (inQuotes st) |}
  else if (ch =? COMMA)%N && negb (inQuotes st) then
    {| out := out st ++ [cur st]; cur := []; inQuotes := inQuotes st |}
  else
    {| out := out st; cur := cur st ++ [ch]; inQuotes := inQuotes st |}.

Definition csvInit : csvState := {| out := []; cur := []; inQuotes := false |}.

(** [parseCSVLine(line)] *)
Definition parseCSVLine (line : jsstring) : list jsstring :=
  let st := fold_left csvStep line csvInit in
  map trim (out st ++ [cur st]).

Definition CSV_IDX_DATE_ISO : nat := 2.
Definition CSV_IDX_NONCOMM_LONG : nat := 8.
Definition CSV_IDX_NONCOMM_SHORT : nat := 9.

Record ParsedRecord : Type := {
  market : jsstring;
  reportDate : jsstring;
  nonCommLong : number;
  nonCommShort : number
}.

Fixpoint removeTrailingQuote (s : jsstring) : jsstring :=
  match s with
  | [] => []
  | c :: r =>
      match r with
      | [] => if (c =? DQUOTE)%N then [] else [c]
      | _ :: _ => c :: removeTrailingQuote r
      end
  end.

(** The replacement of a leading and of a trailing double quote by nothing
    (the global replace of the alternation anchored at both ends). *)
Definition stripSurroundingQuotes (s : jsstring) : jsstring :=
  removeTrailingQuote
    match s with
    | c :: r => if (c =? DQUOTE)%N then r else s
    | [] => []
    end.

(** [a || b] on strings: the empty string is falsy. *)
Definition orElse (a b : jsstring) : jsstring :=
  match a with [] => b | _ => a end.

(** [parseCSVRecord(line)] *)
Definition parseCSVRecord (line : jsstring) : result ParsedRecord :=
  let cols := parseCSVLine line in
  if (length cols <? 10)%nat then
    Throw (Error "CSV line too short to map Non-Comm columns")
  else
    match cols !! 0%nat, cols !! 1%nat, cols !! CSV_IDX_DATE_ISO with
    | Some c0, Some c1, Some c2 =>
        Return {| market := stripSurroundingQuotes c0;
                  reportDate := toISO (orElse c2 c1);
                  nonCommLong := toNumber (cols !! CSV_IDX_NONCOMM_LONG);
                  nonCommShort := toNumber (cols !! CSV_IDX_NONCOMM_SHORT) |}
    | _, _, _ => Throw TypeError
    end.

(** ** Fixed-width parsing *)

(** [s.split(/c{2,}/)] for a class [f] of units: a unit of the class followed
    by another one starts a separator, which extends over the whole run;
    [skipping] records that the cursor is inside such a separator. *)
Fixpoint splitRunsFrom (f : N → bool) (skipping : bool) (cur s : jsstring)
  : list jsstring :=
  match s with
  | [] => [cur]
  | c :: r =>
      if f c then
        if skipping then splitRunsFrom f true cur r
        else
          match r with
          | d :: _ =>
              if f d then cur :: splitRunsFrom f true [] r
              else splitRunsFrom f false (cur ++ [c]) r
          | [] => splitRunsFrom f false (cur ++ [c]) r
          end
      else splitRunsFrom f false (cur ++ [c]) r
  end.

(** [s.split(/\s{2,}/)] *)
Definition splitColumns (s : jsstring) : list jsstring :=
  splitRunsFrom isWhiteSpace false [] s.

Definition columnPairs : list (nat * nat) :=
  [(2, 3); (3, 4); (4, 5); (5, 6)]%nat.

(** The probing loop of [parseFixedWidth]: the first pair with a positive
    decoded value ends the loop; [None] is the pair of [null]s left when the
    loop runs to its end. *)
Fixpoint probePairs (parts : list jsstring) (pairs : list (nat * nat))
  : option (number * number) :=
  match pairs with
  | [] => None
  | (iL, iS) :: rest =>
      let a := toNumber (parts !! iL) in
      let b := toNumber (parts !! iS) in
      if numLt (Finite 0) a || numLt (Finite 0) b then Some (a, b)
      else probePairs parts rest
  end.

(** [parseFixedWidth(line)] *)
Definition parseFixedWidth (line : jsstring) : result ParsedRecord :=
  let parts := splitColumns (trim line) in
  if (length parts <? 5)%nat then Throw (Error "Unexpected fixed-width layout")
  else
    match parts !! 0%nat, parts !! 1%nat with
    | Some market, Some dateToken =>
        match probePairs parts columnPairs with
        | None =>
            Throw (Error "Could not infer Non-Comm columns in fixed-width line")
        | Some (a, b) =>
            Return {| market := market;
                      reportDate := toISO dateToken;
                      nonCommLong := a;
                      nonCommShort := b |}
        end
    | _, _ => Throw TypeError
    end.

(** The choice of parser in [main]. *)
Definition parseTargetLine (targetLine : jsstring) : result ParsedRecord :=
  if includes targetLine [COMMA] then parseCSVRecord targetLine
  else parseFixedWidth targetLine.

(** ** Row Locator *)

Definition candidatePatterns : list jsstring :=
  [ lit "NASDAQ MINI - CHICAGO MERCANTILE EXCHANGE";
    lit "E-MINI NASDAQ-100";
    lit "MICRO E-MINI NASDAQ-100" ].

(** [a.findIndex(f)]; [None] is the index -1. *)
Definition findIndex (f : jsstring → bool) (a : list jsstring) : option nat :=
  fst <$> list_find (λ L, f L = true) a.

Section RowLocator.
Variable Uppercase_Mapping : N → list N.

(** The loop over the patterns: the index found for the first pattern that
    some normalized line includes. *)
Fixpoint firstPatternIndex (normalizedLines : list jsstring)
    (patterns : list jsstring) : option nat :=
  match patterns with
  | [] => None
  | pattern :: rest =>
      let p := norm Uppercase_Mapping pattern in
      match findIndex (λ L, includes L p) normalizedLines with
      | Some idx => Some idx
      | None => firstPatternIndex normalizedLines rest
      end
  end.

Definition fuzzyIndex (normalizedLines : list jsstring) : option nat :=
  findIndex (λ L, includes L (lit "NASDAQ") && includes L (lit "MINI"))
            normalizedLines.

(** The index of the line that [findTargetLine] returns. *)
Definition targetIndex (patterns lines : list jsstring) : option nat :=
  let normalizedLines := map (norm Uppercase_Mapping) lines in
  match firstPatternIndex normalizedLines patterns with
  | Some idx => Some idx
  | None => fuzzyIndex normalizedLines
  end.

(** [findTargetLine(lines)] for a list of patterns; [None] is [null]. *)
Definition findTargetLineWith (patterns lines : list jsstring)
  : option jsstring :=
  match targetIndex patterns lines with
  | Some idx => lines !! idx
  | None => None
  end.

(** [findTargetLine(lines)] *)
Definition findTargetLine (lines : list jsstring) : option jsstring :=
  findTargetLineWith candidatePatterns lines.
End RowLocator.

(** ** Snapshot and output artifact *)

Record Row : Type := {
  label : jsstring;
  value : number;
  prev : option number;
  max : number
}.

Record Cot : Type := {
  weekEnding : jsstring;
  source : jsstring;
  instrument : jsstring;
  rows : list Row
}.

Record AaiiEntry : Type := {
  aaiiLabel : jsstring;
  pct : number;
  aaiiPrev : number
}.

Record Aaii : Type := {
  aaiiWeekEnding : jsstring;
  aaiiSource : jsstring;
  data : list AaiiEntry
}.

(** The artifact as an object; [cot] is optional in a prior snapshot, which
    the script reads through [prev?.cot?.weekEnding]. *)
Record OutputArtifact : Type := {
  cot : option Cot;
  aaii : Aaii;
  updated : jsstring;
  version : Z
}.

Definition labelNet : jsstring := lit "Non-Comm Net".
Definition labelLong : jsstring := lit "Non-Comm Long".
Definition labelShort : jsstring := lit "Non-Comm Short".

Record PrevValues : Type := {
  prevLong : option number;
  prevShort : option number;
  prevNet : option number
}.

Definition noPrevValues : PrevValues :=
  {| prevLong := None; prevShort := None; prevNet := None |}.

(** One iteration of the loop over [prev.cot.rows]. *)
Definition copyRow (acc : PrevValues) (r : Row) : PrevValues :=
  let acc1 := if bool_decide (label r = labelLong)
              then {| prevLong := Some (value r); prevShort := prevShort acc;
                      prevNet := prevNet acc |}
              else acc in
  let acc2 := if bool_decide (label r = labelShort)
              then {| prevLong := prevLong acc1; prevShort := Some (value r);
                      prevNet := prevNet acc1 |}
              else acc1 in
  if bool_decide (label r = labelNet)
  then {| prevLong := prevLong acc2; prevShort := prevShort acc2;
          prevNet := Some (value r) |}
  else acc2.

(** Lines 184 to 191 of [main]: the previous values kept for the new record.
    [prev?.cot?.weekEnding && prev.cot.weekEnding !== parsed.reportDate]. *)
Definition previousValues (prev : option OutputArtifact) (reportDate : jsstring)
  : PrevValues :=
  match prev with
  | None => noPrevValues
  | Some p =>
      match cot p with
      | None => noPrevValues
      | Some c =>
          if negb (bool_decide (weekEnding c = []))
             && negb (bool_decide (weekEnding c = reportDate))
          then fold_left copyRow (rows c) noPrevValues
          else noPrevValues
      end
  end.

(** ** The run *)

Inductive fileContent : Type :=
  | JsonOf (a : OutputArtifact)   (* the text [JSON.stringify] wrote for [a] *)
  | Malformed.                    (* text that [JSON.parse] rejects *)

(** What a run can read and change: the file at [OUT_PATH] and the
    directory [data]. *)
Record World : Type := {
  outFile : option fileContent;
  dataDir : bool
}.

Inductive fetchOutcome : Type :=
  | RequestFailed
  | Response (statusCode : Z) (body : jsstring).

(** What a run reads and cannot change: the answer of the server, the
    environment variables and the clock. *)
Record Inputs : Type := {
  fetched : fetchOutcome;
  AAII_BULLISH : option jsstring;
  AAII_BULLISH_PREV : option jsstring;
  AAII_NEUTRAL : option jsstring;
  AAII_NEUTRAL_PREV : option jsstring;
  AAII_BEARISH : option jsstring;
  AAII_BEARISH_PREV : option jsstring;
  now : jsstring
}.

(** Computations that read and write the world and may throw; the world
    reached when an error is thrown is kept. *)
Definition M (A : Type) : Type := World → World * result A.

Definition throw {A} (e : error) : M A := λ w, (w, Throw e).
Definition liftResult {A} (r : result A) : M A := λ w, (w, r).

#[global] Instance M_ret : MRet M := λ A a w, (w, Return a).
#[global] Instance M_bind : MBind M := λ A B k m w,
  match m w with
  | (w', Return a) => k a w'
  | (w', Throw e) => (w', Throw e)
  end.

(** [fs.existsSync(OUT_PATH)] *)
Definition existsSync : M bool :=
  λ w, (w, Return (bool_decide (outFile w ≠ None))).

(** [JSON.parse(fs.readFileSync(OUT_PATH,'utf8'))].  [JSON.parse] gives back
    the artifact that [JSON.stringify] wrote when the numbers of the
    artifact are finite.  A number that is not finite is written as [null],
    which a [Row] does not hold: what is read of such an artifact differs
    from [a] in those fields. *)
Definition readJSON : M OutputArtifact :=
  λ w, match outFile w with
       | Some (JsonOf a) => (w, Return a)
       | Some Malformed => (w, Throw SyntaxError)
       | None => (w, Throw (Error "ENOENT"))
       end.

(** [fs.mkdirSync('data',{recursive:true})] *)
Definition mkdirSync : M unit :=
  λ w, ({| outFile := outFile w; dataDir := true |}, Return ()).

(** [fs.writeFileSync(OUT_PATH, JSON.stringify(output,null,2))] *)
Definition writeFileSync (output : OutputArtifact) : M unit :=
  λ w, ({| outFile := Some (JsonOf output); dataDir := dataDir w |}, Return ()).

(** [await fetchText(CFTC_URL)] *)
Definition fetchText (f : fetchOutcome) : M jsstring :=
  match f with
  | RequestFailed => throw NetworkError
  | Response statusCode body =>
      if statusCode =? 200 then mret body else throw (HttpError statusCode)
  end.

(** [rawText.split(/\r?\n/)] *)
Fixpoint splitLinesFrom (cur s : jsstring) : list jsstring :=
  match s with
  | [] => [cur]
  | c :: r =>
      if (c =? LF)%N then cur :: splitLinesFrom [] r
      else
        match r with
        | d :: r' =>
            if (c =? CR)%N && (d =? LF)%N then cur :: splitLinesFrom [] r'
            else splitLinesFrom (cur ++ [c]) r
        | [] => splitLinesFrom (cur ++ [c]) r
        end
  end.

Definition nonBlank (l : jsstring) : bool := negb (bool_decide (trim l = [])).

(** [Number(process.env.X)||0] *)
Definition envNumber (v : option jsstring) : number :=
  orZero (match v with None => NaN | Some s => StringToNumber s end).

Section Run.
Variable Uppercase_Mapping : N → list N.

(** [main()] *)
Definition main (inp : Inputs) : M unit :=
  exists_ ← existsSync;
  prev ← (if exists_ : bool then (a ← readJSON; mret (Some a)) else mret None);
  rawText ← fetchText (fetched inp);
  let lines := List.filter nonBlank (splitLinesFrom [] rawText) in
  match findTargetLine Uppercase_Mapping lines with
  | None | Some [] => throw (Error "Target market line not found in CFTC file")
  | Some targetLine =>
      parsed ← liftResult (parseTargetLine targetLine);
      let net := numSub (nonCommLong parsed) (nonCommShort parsed) in
      let pv := previousValues prev (reportDate parsed) in
      let cot :=
        {| weekEnding := reportDate parsed;
           source := lit "cftc-direct";
           instrument := market parsed;
           rows :=
             [ {| label := labelNet; value := net; prev := prevNet pv;
                  max := Finite 500000 |};
               {| label := labelLong; value := nonCommLong parsed;
                  prev := prevLong pv; max := Finite 600000 |};
               {| label := labelShort; value := nonCommShort parsed;
                  prev := prevShort pv; max := Finite 600000 |} ] |} in
      let aaii :=
        {| aaiiWeekEnding := reportDate parsed;
           aaiiSource := lit "manual";
           data :=
             [ {| aaiiLabel := lit "Bullish";
                  pct := envNumber (AAII_BULLISH inp);
                  aaiiPrev := envNumber (AAII_BULLISH_PREV inp) |};
               {| aaiiLabel := lit "Neutral";
                  pct := envNumber (AAII_NEUTRAL inp);
                  aaiiPrev := envNumber (AAII_NEUTRAL_PREV inp) |};
               {| aaiiLabel := lit "Bearish";
                  pct := envNumber (AAII_BEARISH inp);
                  aaiiPrev := envNumber (AAII_BEARISH_PREV inp) |} ] |} in
      let output :=
        {| cot := Some cot; aaii := aaii; updated := now inp; version := 1 |} in
      mkdirSync;;
      writeFileSync output
  end.

(** The process: [main().catch(e => { ...; process.exit(1) })]; the exit
    status is 0 when [main] returns. *)
Definition run (inp : Inputs) (w : World) : World * Z :=
  match main inp w with
  | (w', Return _) => (w', 0)
  | (w', Throw _) => (w', 1)
  end.
End Run.

(** ** Definitions that follow the words of the specification

    These are compared with the definitions above; none of them is used by
    the embedding of the script. *)

(** The Numeric Decoder stripping commas, double quotes and leading plus
    signs only. *)
Definition toNumber_leading_plus (v : option jsstring) : number :=
  match v with
  | None => Finite 0
  | Some s =>
      let cleaned := trim (dropWhile (N.eqb PLUS) (removeCommasQuotes s)) in
      let n := StringToNumber cleaned in
      if isFinite n then n else Finite 0
  end.

(** The fixed-width parser splitting on runs of two or more space
    characters (U+0020) only. *)
Definition parseFixedWidth_space_runs (line : jsstring) : result ParsedRecord :=
  let parts := splitRunsFrom (N.eqb SPACE) false [] (trim line) in
  if (length parts <? 5)%nat then Throw (Error "Unexpected fixed-width layout")
  else
    match parts !! 0%nat, parts !! 1%nat with
    | Some market, Some dateToken =>
        match probePairs parts columnPairs with
        | None =>
            Throw (Error "Could not infer Non-Comm columns in fixed-width line")
        | Some (a, b) =>
            Return {| market := market;
                      reportDate := toISO dateToken;
                      nonCommLong := a;
                      nonCommShort := b |}
        end
    | _, _ => Throw TypeError
    end.

(** The value of the row that carries a label; the last one when several
    rows carry it. *)
Definition valueOfLabel (l : jsstring) (rs : list Row) : option number :=
  value <$> list.last (List.filter (λ r, bool_decide (label r = l)) rs).

(** The positions of the commas of a line that are field boundaries: those
    with an even number of double quotes before them. *)
Definition quoteCount (s : jsstring) : nat :=
  length (List.filter (N.eqb DQUOTE) s).
Definition quotesBefore (i : nat) (line : jsstring) : nat :=
  quoteCount (take i line).
Definition isBoundary (line : jsstring) (i : nat) : bool :=
  bool_decide (line !! i = Some COMMA) && Nat.even (quotesBefore i line).
Definition boundaries (line : jsstring) : list nat :=
  List.filter (isBoundary line) (seq 0 (length line)).

(** A column pair is accepted when one of its decoded values is positive. *)
Definition acceptedPair (parts : list jsstring) (p : nat * nat) : bool :=
  numLt (Finite 0) (toNumber (parts !! p.1))
  || numLt (Finite 0) (toNumber (parts !! p.2)).

(** [p] occurs in [s] as a substring. *)
Definition substring (p s : jsstring) : Prop := ∃ a b, s = a ++ p ++ b.

(** The expansion of a two-digit year around the pivot 70. *)
Definition expandYear (yy : jsstring) : jsstring :=
  (if 70 <? digitsValue yy then lit "19" else lit "20") ++ yy.

(** A prior snapshot as the script writes it, for a week and three rows. *)
Definition snapshotRows (n l s : number) : list Row :=
  [ {| label := labelNet; value := n; prev := None; max := Finite 500000 |};
    {| label := labelLong; value := l; prev := None; max := Finite 600000 |};
    {| label := labelShort; value := s; prev := None; max := Finite 600000 |} ].

Definition snapshotOf (week : jsstring) (rs : list Row) : OutputArtifact :=
  {| cot := Some {| weekEnding := week; source := lit "cftc-direct";
                    instrument := lit "E-MINI NASDAQ-100 STOCK INDEX";
                    rows := rs |};
     aaii := {| aaiiWeekEnding := week; aaiiSource := lit "manual"; data := [] |};
     updated := lit "2025-08-08T00:00:00.000Z";
     version := 1 |}.

(** A token without a minus sign ([null] and [undefined] have none). *)
Definition noMinus (t : option jsstring) : Prop :=
  ∀ s, t = Some s → HYPHEN ∉ s.

(** The non-blank lines of a report: [rawText.split(/\r?\n/).filter(l=>l.trim())]. *)
Definition reportLines (rawText : jsstring) : list jsstring :=
  List.filter nonBlank (splitLinesFrom [] rawText).

(** The fatal conditions of a run. *)
Inductive fatal (UM : N → list N) (inp : Inputs) (w : World) : Prop :=
  | fatal_snapshot : outFile w = Some Malformed → fatal UM inp w
  | fatal_request : fetched inp = RequestFailed → fatal UM inp w
  | fatal_status s b :
      fetched inp = Response s b → s ≠ 200 → fatal UM inp w
  | fatal_not_found b :
      fetched inp = Response 200 b →
      findTargetLine UM (reportLines b) = None → fatal UM inp w
  | fatal_empty_line b :
      fetched inp = Response 200 b →
      findTargetLine UM (reportLines b) = Some [] → fatal UM inp w
  | fatal_parse b l e :
      fetched inp = Response 200 b →
      findTargetLine UM (reportLines b) = Some l →
      parseTargetLine l = Throw e → fatal UM inp w.

(** Shapes of date tokens: [digits n s] says that [s] is made of [n] decimal
    digits. *)
Definition digits (n : nat) (s : jsstring) : Prop :=
  length s = n ∧ forallb isDigit s = true.

(** YYYY-MM-DD *)
Definition ISOShape (md : jsstring) : Prop :=
  ∃ y m d, digits 4 y ∧ digits 2 m ∧ digits 2 d
           ∧ md = y ++ [HYPHEN] ++ m ++ [HYPHEN] ++ d.

(** YYMMDD *)
Definition YYMMDDShape (md : jsstring) : Prop :=
  ∃ yy mm dd, digits 2 yy ∧ digits 2 mm ∧ digits 2 dd ∧ md = yy ++ mm ++ dd.

(** MM/DD/Y..Y with a year of [k] digits. *)
Definition SlashShape (k : nat) (md : jsstring) : Prop :=
  ∃ m d yr, digits 2 m ∧ digits 2 d ∧ digits k yr
            ∧ md = m ++ [SLASH] ++ d ++ [SLASH] ++ yr.

(** The delimited line of the end-to-end scenario, and a first run on a
    report that holds it. *)
Definition scenarioLine : jsstring :=
  [DQUOTE] ++ lit "E-MINI NASDAQ-100 STOCK INDEX" ++ [DQUOTE; COMMA; DQUOTE]
  ++ lit "250805" ++ [DQUOTE; COMMA; DQUOTE] ++ lit "2025-08-05" ++ [DQUOTE]
  ++ lit ",,,,,100000,30000,20000".

Definition scenarioInputs : Inputs :=
  {| fetched := Response 200 (lit "Traders in Financial Futures" ++ [CR; LF]
                              ++ scenarioLine ++ [CR; LF]);
     AAII_BULLISH := None; AAII_BULLISH_PREV := None;
     AAII_NEUTRAL := None; AAII_NEUTRAL_PREV := None;
     AAII_BEARISH := None; AAII_BEARISH_PREV := None;
     now := lit "2025-08-08T21:00:00.000Z" |}.

Definition firstRun : World := {| outFile := None; dataDir := false |}.

(** The rows of the cot view that a world holds at the output path. *)
Definition writtenRows (w : World) : option (list Row) :=
  match outFile w with
  | Some (JsonOf a) => rows <$> cot a
  | _ => None
  end.

(** A line is hit by a pattern when its normalized form contains the
    normalized pattern; it is a fuzzy match when its normalized form
    contains both NASDAQ and MINI. *)
Definition hits (UM : N → list N) (pattern line : jsstring) : Prop :=
  substring (norm UM pattern) (norm UM line).
Definition fuzzy (UM : N → list N) (line : jsstring) : Prop :=
  substring (lit "NASDAQ") (norm UM line) ∧ substring (lit "MINI") (norm UM line).

(** ** The normal form, as a scan of the string

    The Text Normalizer in the words of the specification: dash variants
    become hyphens, every whitespace run between two words becomes one
    space, and leading and trailing whitespace goes. *)

Inductive scanState : Type :=
  | AtStart       (* nothing kept so far *)
  | InWord        (* the last unit read was kept *)
  | AfterSpace.   (* a word was kept and whitespace was read after it *)

Definition unify (c : N) : N := if isDashVariant c then HYPHEN else c.

Definition afterWhitespace (st : scanState) : scanState :=
  match st with AtStart => AtStart | _ => AfterSpace end.

Definition pendingSpace (st : scanState) : jsstring :=
  match st with AfterSpace => [SPACE] | _ => [] end.

Fixpoint normalFrom (st : scanState) (s : jsstring) : jsstring :=
  match s with
  | [] => []
  | c :: r =>
      if isWhiteSpace c then normalFrom (afterWhitespace st) r
      else pendingSpace st ++ unify c :: normalFrom InWord r
  end.

Definition normalForm (s : jsstring) : jsstring := normalFrom AtStart s.

(** The state of the scan after a string. *)
Definition scanStep (st : scanState) (c : N) : scanState :=
  if isWhiteSpace c then afterWhitespace st else InWord.
Definition scanAfter (st : scanState) (s : jsstring) : scanState :=
  fold_left scanStep s st.

(** ** Strings and case tables *)

Definition isSurrogate (c : N) : bool :=
  isLeadingSurrogate c || isTrailingSurrogate c.

(** A string of code units. *)
Definition codeUnits (s : jsstring) : Prop := Forall (λ c, (c ≤ 0xFFFF)%N) s.

(** What the theorems on the normalizer use of the Unicode upper-case
    mapping: whitespace, the dash variants, the hyphen and the surrogates are
    their own upper case; no mapping is empty; no mapping brings in
    whitespace, a dash variant or a surrogate, or leaves the code space; and
    an upper-case mapping consists of code points that are their own upper
    case. *)
Record UpperCaseTable (UM : N → list N) : Prop := {
  upper_whitespace : ∀ c, isWhiteSpace c = true → UM c = [c];
  upper_dash : ∀ c, isDashVariant c = true → UM c = [c];
  upper_hyphen : UM HYPHEN = [HYPHEN];
  upper_surrogate : ∀ c, isSurrogate c = true → UM c = [c];
  upper_nonempty : ∀ c, UM c ≠ [];
  upper_no_whitespace :
    ∀ c d, isWhiteSpace c = false → d ∈ UM c → isWhiteSpace d = false;
  upper_no_dash :
    ∀ c d, isDashVariant c = false → d ∈ UM c → isDashVariant d = false;
  upper_no_surrogate :
    ∀ c d, isSurrogate c = false → d ∈ UM c → isSurrogate d = false;
  upper_range : ∀ c d, (c ≤ 0x10FFFF)%N → d ∈ UM c → (d ≤ 0x10FFFF)%N;
  upper_idempotent : ∀ c, flat_map UM (UM c) = UM c
}.

(** Two renderings of one name: they differ only in dash variants, in
    whitespace runs, in leading or trailing whitespace, or in letter case
    (their upper-case forms are the same). *)
Inductive sameRendering (UM : N → list N) : jsstring → jsstring → Prop :=
  | same_refl s : sameRendering UM s s
  | same_sym s t : sameRendering UM s t → sameRendering UM t s
  | same_trans s t u :
      sameRendering UM s t → sameRendering UM t u → sameRendering UM s u
  | same_dash a c b :
      isDashVariant c = true →
      sameRendering UM (a ++ [c] ++ b) (a ++ [HYPHEN] ++ b)
  | same_whitespace_run a w1 w2 b :
      w1 ≠ [] → w2 ≠ [] →
      forallb isWhiteSpace w1 = true → forallb isWhiteSpace w2 = true →
      sameRendering UM (a ++ w1 ++ b) (a ++ w2 ++ b)
  | same_leading w s :
      forallb isWhiteSpace w = true → sameRendering UM (w ++ s) s
  | same_trailing w s :
      forallb isWhiteSpace w = true → sameRendering UM (s ++ w) s
  | same_case s t :
      codeUnits s → codeUnits t →
      toUpperCase UM s = toUpperCase UM t → sameRendering UM s t.

(** A unit that is neither whitespace nor a dash variant is kept as it is. *)
Definition plain (c : N) : Prop :=
  isWhiteSpace c = false ∧ isDashVariant c = false.

(** A mapping of units to strings that keeps the classes of the normalizer:
    whitespace and dash variants map to themselves, nothing maps to the
    empty string, and a plain unit maps to plain units. *)
Definition keepsClasses (g : N → list N) (c : N) : Prop :=
  (isWhiteSpace c = true → g c = [c])
  ∧ (isDashVariant c = true → g c = [c])
  ∧ g c ≠ []
  ∧ (plain c → Forall plain (g c)).

(** The first unit of a string is a trailing surrogate. *)
Definition headTrail (s : jsstring) : bool :=
  match s with d :: _ => isTrailingSurrogate d | [] => false end.

(** No leading surrogate is followed by a trailing surrogate: the code
    points of a string are of this kind. *)
Fixpoint noPair (cps : list N) : Prop :=
  match cps with
  | [] => True
  | c :: r => isLeadingSurrogate c && headTrail r = false ∧ noPair r
  end.

(** ** Definitions for the further properties *)

(** [ls.join(sep)] for a one-unit separator. *)
Definition joinWith (sep : N) (ls : list jsstring) : jsstring :=
  match ls with
  | [] => []
  | l :: ls' => l ++ flat_map (λ x, sep :: x) ls'
  end.

(** [s.replace(/\r\n/g,'\n')] *)
Fixpoint crlfToLf (s : jsstring) : jsstring :=
  match s with
  | [] => []
  | c :: r =>
      match r with
      | d :: r' =>
          if (c =? CR)%N && (d =? LF)%N then LF :: crlfToLf r'
          else c :: crlfToLf r
      | [] => [c]
      end
  end.

(** The number of line feeds of a text. *)
Definition lineFeeds (s : jsstring) : nat :=
  length (List.filter (N.eqb LF) s).

(** Lines 181 to 219 of [main]: the artifact assembled from the prior
    snapshot, the environment and the parsed record. *)
Definition assembleOutput (prev : option OutputArtifact) (inp : Inputs)
    (parsed : ParsedRecord) : OutputArtifact :=
  let net := numSub (nonCommLong parsed) (nonCommShort parsed) in
  let pv := previousValues prev (reportDate parsed) in
  {| cot :=
       Some {| weekEnding := reportDate parsed;
               source := lit "cftc-direct";
               instrument := market parsed;
               rows :=
                 [ {| label := labelNet; value := net; prev := prevNet pv;
                      max := Finite 500000 |};
                   {| label := labelLong; value := nonCommLong parsed;
                      prev := prevLong pv; max := Finite 600000 |};
                   {| label := labelShort; value := nonCommShort parsed;
                      prev := prevShort pv; max := Finite 600000 |} ] |};
     aaii :=
       {| aaiiWeekEnding := reportDate parsed;
          aaiiSource := lit "manual";
          data :=
            [ {| aaiiLabel := lit "Bullish";
                 pct := envNumber (AAII_BULLISH inp);
                 aaiiPrev := envNumber (AAII_BULLISH_PREV inp) |};
              {| aaiiLabel := lit "Neutral";
                 pct := envNumber (AAII_NEUTRAL inp);
                 aaiiPrev := envNumber (AAII_NEUTRAL_PREV inp) |};
              {| aaiiLabel := lit "Bearish";
                 pct := envNumber (AAII_BEARISH inp);
                 aaiiPrev := envNumber (AAII_BEARISH_PREV inp) |} ] |};
     updated := now inp;
     version := 1 |}.

(** The cot view that a world holds at the output path. *)
Definition writtenCot (w : World) : option Cot :=
  match outFile w with
  | Some (JsonOf a) => cot a
  | _ => None
  end.

(** A report of the following week, for a second run. *)
Definition nextWeekInputs : Inputs :=
  {| fetched := Response 200 (lit "E-MINI NASDAQ-100 STOCK INDEX,250812,2025-08-12,,,,,100000,31000,19500");
     AAII_BULLISH := None; AAII_BULLISH_PREV := None;
     AAII_NEUTRAL := None; AAII_NEUTRAL_PREV := None;
     AAII_BEARISH := None; AAII_BEARISH_PREV := None;
     now := lit "2025-08-15T21:00:00.000Z" |}.

(** Column [i] decodes to a strictly positive number. *)
Definition positiveColumn (parts : list jsstring) (i : nat) : bool :=
  numLt (Finite 0) (toNumber (parts !! i)).

(** The columns put back together with the separators between them. *)
Fixpoint weave (parts seps : list jsstring) : jsstring :=
  match parts, seps with
  | [], _ => []
  | p :: _, [] => p
  | p :: ps, sep :: ss => p ++ sep ++ weave ps ss
  end.

(** No two whitespace units follow one another. *)
Fixpoint singleSpaced (s : jsstring) : Prop :=
  match s with
  | [] => True
  | c :: r =>
      match r with
      | d :: _ => isWhiteSpace c && isWhiteSpace d = false
      | [] => True
      end ∧ singleSpaced r
  end.

(** * Properties *)

(** ** Worked examples *)

Example norm_example :
  norm latin1_upper (lit "  e-mini   nasdaq" ++ [EN_DASH] ++ lit "100 ")
  = lit "E-MINI NASDAQ-100".
Proof. vm_compute. reflexivity. Qed.

Example toNumber_ex1 : toNumber (Some (lit "12,345")) = Finite 12345.
Proof. vm_compute. reflexivity. Qed.

Example toNumber_ex2 : toNumber (Some (lit "0.1")) = Finite (3602879701896397 # 36028797018963968).
Proof. vm_compute. reflexivity. Qed.

Example toNumber_ex3 : toNumber (Some (lit "1e400")) = Finite 0.
Proof. vm_compute. reflexivity. Qed.

Example toNumber_ex4 : StringToNumber (lit "1.7976931348623157e308") = Finite (inject_Z ((2^53 - 1) * 2 ^ 971)).
Proof. vm_compute. reflexivity. Qed.

Example toNumber_ex5 : StringToNumber (lit "1.7976931348623159e308") = Infinity false.
Proof. vm_compute. reflexivity. Qed.

Example toNumber_ex6 : StringToNumber (lit "5e-324") = Finite (1 # Z.to_pos (2 ^ 1074)).
Proof. vm_compute. reflexivity. Qed.

Example toNumber_ex7 : StringToNumber (lit "2e-324") = Finite 0.
Proof. vm_compute. reflexivity. Qed.

Example toNumber_ex8 : StringToNumber (lit " -0x1F ") = NaN /\ StringToNumber (lit " 0x1F ") = Finite 31 /\ StringToNumber (lit "-.5e1") = Finite (-5).
Proof. vm_compute. auto. Qed.

(** ** Numeric Decoder *)

Lemma isFinite_toNumber v : isFinite (toNumber v) = true.
Proof.
  destruct v as [s|]; simpl; [|done].
  by destruct (isFinite (StringToNumber _)) eqn:E.
Qed.

Lemma filter_filter_bool {A} (f g : A → bool) (l : list A) :
  List.filter f (List.filter g l) = List.filter (λ x, g x && f x) l.
Proof.
  induction l as [|x l IH]; simpl; [done|].
  destruct (g x); simpl; [destruct (f x)|]; by rewrite IH.
Qed.

(** C5, as the claim words it, fails: a plus sign that is not leading is
    removed too, so a token with an inner plus sign decodes to a number
    where the claim gives 0. *)
Lemma toNumber_inner_plus_counterexample :
  toNumber (Some (lit "1+2")) = Finite 12
  ∧ toNumber_leading_plus (Some (lit "1+2")) = Finite 0
  ∧ toNumber (Some (lit "1+2")) ≠ toNumber_leading_plus (Some (lit "1+2")).
Proof. vm_compute. split; [done|split; [done|discriminate]]. Qed.

(** C5 (amended): the Numeric Decoder is total, gives 0 for null or
    undefined, and for a string removes every comma, every double quote and
    every plus sign wherever they occur, trims, converts the remainder with
    Number and gives 0 unless the outcome is finite; its result is always
    finite.  The tokens of the specification decode as listed. *)
Theorem toNumber_decodes :
  toNumber None = Finite 0
  ∧ (∀ s, let cleaned :=
            trim (List.filter
                    (λ c, negb (bool_decide (c ∈ [COMMA; DQUOTE; PLUS]))) s) in
          toNumber (Some s)
          = match StringToNumber cleaned with
            | Finite q => Finite q
            | _ => Finite 0
            end)
  ∧ (∀ v, isFinite (toNumber v) = true)
  ∧ toNumber (Some (lit "12,345")) = Finite 12345
  ∧ toNumber (Some ([DQUOTE] ++ lit "1,000" ++ [DQUOTE])) = Finite 1000
  ∧ toNumber (Some (lit "+50")) = Finite 50
  ∧ toNumber (Some (lit "abc")) = Finite 0
  ∧ toNumber (Some (lit "Infinity")) = Finite 0
  ∧ toNumber (Some (lit "1e999")) = Finite 0.
Proof.
  split; [done|]. split.
  { intros s cleaned. unfold toNumber, removePluses, removeCommasQuotes.
    rewrite filter_filter_bool.
    assert (List.filter (λ x, negb ((x =? COMMA)%N || (x =? DQUOTE)%N)
                                && negb (x =? PLUS)%N) s
            = List.filter
                (λ c, negb (bool_decide (c ∈ [COMMA; DQUOTE; PLUS]))) s) as ->.
    { apply List.filter_ext. intros c.
      destruct (N.eqb_spec c COMMA) as [->|H1]; [done|].
      destruct (N.eqb_spec c DQUOTE) as [->|H2]; [done|].
      destruct (N.eqb_spec c PLUS) as [->|H3]; [done|].
      simpl. rewrite bool_decide_eq_false_2; [done|].
      rewrite !elem_of_cons, elem_of_nil. tauto. }
    fold cleaned. by destruct (StringToNumber cleaned). }
  split; [apply isFinite_toNumber|].
  vm_compute. repeat split.
Qed.

(** ** Snapshot Reconciler *)

Lemma valueOfLabel_cons l r rs :
  valueOfLabel l (r :: rs)
  = match valueOfLabel l rs with
    | Some v => Some v
    | None => if bool_decide (label r = l) then Some (value r) else None
    end.
Proof.
  unfold valueOfLabel. simpl.
  destruct (bool_decide (label r = l)); [|by destruct (list.last _)].
  destruct (List.filter _ rs) as [|x xs] eqn:E; [done|].
  change (list.last (r :: x :: xs)) with (list.last (x :: xs)).
  destruct (list.last (x :: xs)) eqn:E'; [done|].
  by apply last_None in E'.
Qed.

Lemma valueOfLabel_absent l rs : l ∉ map label rs → valueOfLabel l rs = None.
Proof.
  induction rs as [|r rs IH]; [done|].
  simpl. rewrite not_elem_of_cons. intros [Hne Hnot].
  rewrite valueOfLabel_cons, IH by done.
  by rewrite bool_decide_eq_false_2.
Qed.

(** With one row for each label, [valueOfLabel] is the value of that row. *)
Lemma valueOfLabel_unique r rs :
  NoDup (map label rs) → r ∈ rs → valueOfLabel (label r) rs = Some (value r).
Proof.
  induction rs as [|x rs IH]; simpl; [by rewrite elem_of_nil|].
  intros Hnd' Hin'. apply list.NoDup_cons in Hnd' as [Hx Hnd].
  apply elem_of_cons in Hin' as [->|Hin].
  - rewrite valueOfLabel_cons, valueOfLabel_absent by done.
    by rewrite bool_decide_eq_true_2.
  - by rewrite valueOfLabel_cons, IH.
Qed.

Lemma copyRow_fields acc r :
  prevLong (copyRow acc r)
  = (if bool_decide (label r = labelLong) then Some (value r) else prevLong acc)
  ∧ prevShort (copyRow acc r)
    = (if bool_decide (label r = labelShort) then Some (value r)
       else prevShort acc)
  ∧ prevNet (copyRow acc r)
    = (if bool_decide (label r = labelNet) then Some (value r) else prevNet acc).
Proof.
  unfold copyRow.
  destruct (bool_decide (label r = labelLong)),
    (bool_decide (label r = labelShort)),
    (bool_decide (label r = labelNet)); done.
Qed.

Lemma fold_copyRow rs acc :
  fold_left copyRow rs acc
  = {| prevLong := from_option Some (prevLong acc) (valueOfLabel labelLong rs);
       prevShort :=
         from_option Some (prevShort acc) (valueOfLabel labelShort rs);
       prevNet := from_option Some (prevNet acc) (valueOfLabel labelNet rs) |}.
Proof.
  revert acc. induction rs as [|r rs IH]; intros acc; [by destruct acc|].
  simpl. rewrite IH, !valueOfLabel_cons.
  destruct (copyRow_fields acc r) as (-> & -> & ->).
  by destruct (valueOfLabel labelLong rs), (valueOfLabel labelShort rs),
    (valueOfLabel labelNet rs), (bool_decide (label r = labelLong)),
    (bool_decide (label r = labelShort)), (bool_decide (label r = labelNet)).
Qed.

(** C1, as the claim words it, fails: a prior snapshot whose weekEnding is
    the empty string differs from the new report date, yet no previous value
    is copied from its rows. *)
Lemma previousValues_empty_weekEnding_counterexample :
  let rs := snapshotRows (Finite 10000) (Finite 30000) (Finite 20000) in
  let p := snapshotOf [] rs in
  let d := lit "2025-08-05" in
  (∃ c, cot p = Some c ∧ weekEnding c ≠ d
        ∧ valueOfLabel labelNet (rows c) = Some (Finite 10000))
  ∧ prevNet (previousValues (Some p) d) = None
  ∧ prevNet (previousValues (Some p) d) ≠ valueOfLabel labelNet rs.
Proof.
  simpl. split; [|split; [done|]].
  - eexists. split; [done|]. split; [discriminate|]. vm_compute. done.
  - vm_compute. discriminate.
Qed.

(** C1 (amended): the three previous values are null when there is no prior
    snapshot, when the prior snapshot has no cot view or an empty weekEnding,
    and when the prior weekEnding equals the new report date; when the prior
    weekEnding is not empty and differs from the new report date, each of
    them is the value of the prior row with the matching label (the last
    such row, null when no row carries the label).  The two cases of the
    specification come out as it says. *)
Theorem previousValues_rule :
  (∀ d, previousValues None d = noPrevValues)
  ∧ (∀ p d, cot p = None → previousValues (Some p) d = noPrevValues)
  ∧ (∀ p c d, cot p = Some c → weekEnding c = [] →
       previousValues (Some p) d = noPrevValues)
  ∧ (∀ p c, cot p = Some c →
       previousValues (Some p) (weekEnding c) = noPrevValues)
  ∧ (∀ p c d, cot p = Some c → weekEnding c ≠ [] → weekEnding c ≠ d →
       previousValues (Some p) d
       = {| prevLong := valueOfLabel labelLong (rows c);
            prevShort := valueOfLabel labelShort (rows c);
            prevNet := valueOfLabel labelNet (rows c) |})
  ∧ (∀ n l s,
       previousValues (Some (snapshotOf (lit "2025-08-05") (snapshotRows n l s)))
                      (lit "2025-08-05")
       = noPrevValues)
  ∧ (∀ n l s,
       previousValues (Some (snapshotOf (lit "2025-07-29") (snapshotRows n l s)))
                      (lit "2025-08-05")
       = {| prevLong := Some l; prevShort := Some s; prevNet := Some n |}).
Proof.
  split; [done|].
  split; [by intros p d H; unfold previousValues; rewrite H|].
  split; [by intros p c d H1 H2; unfold previousValues; rewrite H1, H2|].
  split.
  { intros p c H. unfold previousValues. rewrite H.
    rewrite (bool_decide_eq_true_2 (_ = weekEnding c)) by done.
    by rewrite andb_false_r. }
  split.
  { intros p c d H H1 H2. unfold previousValues. rewrite H.
    rewrite !bool_decide_eq_false_2 by done. simpl.
    rewrite fold_copyRow. simpl.
    by destruct (valueOfLabel labelLong _), (valueOfLabel labelShort _),
      (valueOfLabel labelNet _). }
  split; [done|].
  intros n l s. reflexivity.
Qed.

(** ** Fixed-width parsing *)

Local Arguments numLt : simpl never.
Local Arguments toNumber : simpl never.
Local Arguments toISO : simpl never.

Lemma probePairs_None parts pairs :
  probePairs parts pairs = None
  ↔ Forall (λ q, acceptedPair parts q = false) pairs.
Proof.
  induction pairs as [|[iL iS] pairs IH]; simpl.
  - split; [constructor|done].
  - rewrite list.Forall_cons. unfold acceptedPair at 1. simpl.
    destruct (numLt _ _ || numLt _ _); [|tauto].
    split; [done|]. by intros [? _].
Qed.

Lemma probePairs_first parts pre p post :
  Forall (λ q, acceptedPair parts q = false) pre →
  acceptedPair parts p = true →
  probePairs parts (pre ++ p :: post)
  = Some (toNumber (parts !! p.1), toNumber (parts !! p.2)).
Proof.
  intros Hpre Hp. induction Hpre as [|[iL iS] pre Hq _ IH]; simpl.
  - destruct p as [iL iS]. unfold acceptedPair in Hp. simpl in *. by rewrite Hp.
  - unfold acceptedPair in Hq. simpl in Hq. by rewrite Hq.
Qed.

Lemma probePairs_Some parts pairs a b :
  probePairs parts pairs = Some (a, b) →
  ∃ pre p post,
    pairs = pre ++ p :: post
    ∧ Forall (λ q, acceptedPair parts q = false) pre
    ∧ acceptedPair parts p = true
    ∧ a = toNumber (parts !! p.1) ∧ b = toNumber (parts !! p.2).
Proof.
  induction pairs as [|[iL iS] pairs IH]; simpl; [done|].
  destruct (numLt _ _ || numLt _ _) eqn:E.
  - intros [= <- <-]. by exists [], (iL, iS), pairs.
  - intros (pre & p & post & -> & Hpre & Hp & Ha & Hb)%IH.
    exists ((iL, iS) :: pre), p, post. repeat split; try done.
    by constructor.
Qed.

Lemma parseFixedWidth_unfold line :
  let parts := splitColumns (trim line) in
  parseFixedWidth line
  = if (length parts <? 5)%nat then Throw (Error "Unexpected fixed-width layout")
    else match parts !! 0%nat, parts !! 1%nat with
         | Some m, Some dtok =>
             match probePairs parts columnPairs with
             | None =>
                 Throw (Error "Could not infer Non-Comm columns in fixed-width line")
             | Some (a, b) =>
                 Return {| market := m; reportDate := toISO dtok;
                           nonCommLong := a; nonCommShort := b |}
             end
         | _, _ => Throw TypeError
         end.
Proof. reflexivity. Qed.

Lemma first_two_columns (parts : list jsstring) :
  (5 ≤ length parts)%nat →
  ∃ m dtok, parts !! 0%nat = Some m ∧ parts !! 1%nat = Some dtok.
Proof.
  intros H. destruct parts as [|m [|dtok parts]]; simpl in H; try lia.
  by exists m, dtok.
Qed.

(** C3, as the claim words it, fails: the columns are separated by runs of
    two or more whitespace units of any kind, so a line whose columns are
    separated by tabs is parsed where splitting on spaces gives one column
    and a structural error. *)
Lemma parseFixedWidth_tabs_counterexample :
  let line := lit "A" ++ [TAB; TAB] ++ lit "B" ++ [TAB; TAB] ++ lit "C"
              ++ [TAB; TAB] ++ lit "D" ++ [TAB; TAB] ++ lit "5" in
  includes line [COMMA] = false
  ∧ parseTargetLine line
    = Return {| market := lit "A"; reportDate := lit "B";
                nonCommLong := Finite 0; nonCommShort := Finite 5 |}
  ∧ parseFixedWidth_space_runs line
    = Throw (Error "Unexpected fixed-width layout")
  ∧ parseTargetLine line ≠ parseFixedWidth_space_runs line.
Proof. vm_compute. repeat split; discriminate. Qed.

(** C3 (amended): a located line without a comma is parsed as fixed width:
    the trimmed line is split on runs of two or more whitespace units
    (spaces, tabs and the other units of the class \s); the structural error
    of the layout is thrown exactly when fewer than five columns result;
    otherwise the pairs (2,3), (3,4), (4,5), (5,6) are probed in that order,
    the first pair with a strictly positive decoded value is returned as
    (nonCommLong, nonCommShort), and the second structural error is thrown
    exactly when no pair has a positive value. *)
Theorem parseFixedWidth_probes (line : jsstring) :
  includes line [COMMA] = false →
  let parts := splitColumns (trim line) in
  parseTargetLine line = parseFixedWidth line
  ∧ ((length parts < 5)%nat
     ↔ parseFixedWidth line = Throw (Error "Unexpected fixed-width layout"))
  ∧ columnPairs = [(2, 3); (3, 4); (4, 5); (5, 6)]%nat
  ∧ (∀ pre p post,
       (5 ≤ length parts)%nat →
       columnPairs = pre ++ p :: post →
       Forall (λ q, acceptedPair parts q = false) pre →
       acceptedPair parts p = true →
       ∃ m dtok,
         parts !! 0%nat = Some m ∧ parts !! 1%nat = Some dtok
         ∧ parseFixedWidth line
           = Return {| market := m; reportDate := toISO dtok;
                       nonCommLong := toNumber (parts !! p.1);
                       nonCommShort := toNumber (parts !! p.2) |})
  ∧ ((5 ≤ length parts)%nat
     ∧ Forall (λ q, acceptedPair parts q = false) columnPairs
     ↔ parseFixedWidth line
       = Throw (Error "Could not infer Non-Comm columns in fixed-width line")).
Proof.
  intros Hcomma parts.
  split; [by unfold parseTargetLine; rewrite Hcomma|].
  rewrite parseFixedWidth_unfold. fold parts.
  destruct (Nat.ltb_spec (length parts) 5) as [Hlt|Hge].
  { split; [done|]. split; [done|]. split; [intros; lia|].
    split; [intros [? _]; lia|discriminate]. }
  destruct (first_two_columns parts Hge) as (m & dtok & -> & ->).
  split.
  { split; [lia|]. by destruct (probePairs _ _) as [[??]|]. }
  split; [done|]. split.
  - intros pre p post _ -> Hpre Hp. exists m, dtok.
    by rewrite (probePairs_first _ _ _ _ Hpre Hp).
  - rewrite <- probePairs_None.
    destruct (probePairs _ _) as [[??]|]; [|done].
    split; [by intros [_ ?]|discriminate].
Qed.

Lemma parseFixedWidth_probes_witness :
  let line := lit "NASDAQ MINI   250805   0   0  12  7" in
  parseTargetLine line
  = Return {| market := lit "NASDAQ MINI"; reportDate := lit "2025-08-05";
              nonCommLong := Finite 0; nonCommShort := Finite 12 |}.
Proof.
  intros line.
  assert (includes line [COMMA] = false) as Hc by (vm_compute; reflexivity).
  destruct (parseFixedWidth_probes line Hc) as (-> & _ & _ & Hfirst & _).
  destruct (Hfirst [(2, 3)]%nat (3, 4)%nat [(4, 5); (5, 6)]%nat)
    as (m & dtok & Hm & Hd & ->).
  - vm_compute. lia.
  - reflexivity.
  - constructor; [vm_compute; reflexivity|constructor].
  - vm_compute. reflexivity.
  - vm_compute in Hm, Hd. injection Hm as <-. injection Hd as <-.
    vm_compute. reflexivity.
Defined.

(** ** Sign of the decoded numbers *)

Lemma numLt_Finite_0 q : numLt (Finite q) (Finite 0) = (Qnum q <? 0)%Z.
Proof. unfold numLt. simpl. by rewrite Z.mul_1_r. Qed.

Lemma Qred_nonneg q : (0 ≤ Qnum q)%Z → (0 ≤ Qnum (Qred q))%Z.
Proof.
  intros H. assert (0 <= Qred q)%Q as Hle.
  { rewrite Qred_correct. unfold Qle. simpl. lia. }
  unfold Qle in Hle. simpl in Hle. lia.
Qed.

Lemma roundBinary64_nonneg n d :
  (0 ≤ n)%Z → (0 < d)%Z → numLt (roundBinary64 n d) (Finite 0) = false.
Proof.
  intros Hn Hd. unfold roundBinary64.
  destruct (n =? 0)%Z; [done|].
  destruct (scaleBy n d (Z.log2 n - Z.log2 d - 52)) as [a1 b1].
  set (e := Z.max _ _). clearbody e.
  destruct (scaleBy n d e) as [a b] eqn:Hs.
  assert (0 ≤ a ∧ 0 < b)%Z as [Ha Hb].
  { unfold scaleBy in Hs. destruct (0 <=? e)%Z eqn:He; injection Hs as <- <-.
    - split; [done|]. apply Z.mul_pos_pos; [done|]. apply Z.pow_pos_nonneg; lia.
    - split; [|done]. apply Z.mul_nonneg_nonneg; [done|].
      apply Z.pow_nonneg. lia. }
  match goal with
  | |- context [if ?c then (a / b + 1)%Z else (a / b)%Z] =>
      set (m' := if c then (a / b + 1)%Z else (a / b)%Z)
  end.
  assert (0 ≤ m')%Z as Hm.
  { unfold m'. pose proof (Z.div_pos a b Ha Hb). case_match; lia. }
  clearbody m'.
  case_match; [done|].
  rewrite numLt_Finite_0. apply Z.ltb_ge, Qred_nonneg.
  destruct (0 <=? e)%Z eqn:He; simpl; [|done].
  apply Z.mul_nonneg_nonneg; [done|]. apply Z.pow_nonneg. lia.
Qed.

Lemma span_forallb f s : forallb f (span f s).1 = true.
Proof.
  induction s as [|c s IH]; simpl; [done|].
  destruct (f c) eqn:E; [|done]. destruct (span f s). simpl in *. by rewrite E.
Qed.

Lemma digitsValue_from_nonneg ds acc :
  forallb isDigit ds = true → (0 ≤ acc)%Z →
  (0 ≤ fold_left (λ a c, 10 * a + (Z.of_N c - 48)) ds acc)%Z.
Proof.
  revert acc. induction ds as [|c ds IH]; intros acc; simpl; [done|].
  intros [Hc Hds]%andb_prop Hacc. apply IH; [done|].
  unfold isDigit in Hc. apply andb_prop in Hc as [H1%N.leb_le H2]. lia.
Qed.

Lemma digitsValue_nonneg ds : forallb isDigit ds = true → (0 ≤ digitsValue ds)%Z.
Proof. intros H. by apply digitsValue_from_nonneg. Qed.

Lemma decimalValue_nonneg M E :
  (0 ≤ M)%Z → numLt (decimalValue M E) (Finite 0) = false.
Proof.
  intros HM. unfold decimalValue. destruct (0 <=? E)%Z eqn:HE.
  - apply roundBinary64_nonneg; [|done].
    apply Z.mul_nonneg_nonneg; [done|]. apply Z.pow_nonneg. lia.
  - apply roundBinary64_nonneg; [done|]. apply Z.pow_pos_nonneg; lia.
Qed.

Lemma strUnsignedDecimalLiteral_nonneg s :
  numLt (strUnsignedDecimalLiteral s) (Finite 0) = false.
Proof.
  unfold strUnsignedDecimalLiteral.
  destruct (bool_decide _); [done|].
  pose proof (span_forallb isDigit s) as Hip.
  destruct (span isDigit s) as [ip r1]. simpl in Hip.
  assert (∃ fp r2, forallb isDigit fp = true
            ∧ match r1 with
              | c :: r => if (c =? DOT)%N then span isDigit r else ([], r1)
              | [] => ([], [])
              end = (fp, r2)) as (fp & r2 & Hfp & ->).
  { destruct r1 as [|c r]; [by exists [], []|].
    destruct (c =? DOT)%N; [|by exists [], (c :: r)].
    pose proof (span_forallb isDigit r). destruct (span isDigit r) as [fp r2].
    by exists fp, r2. }
  case_match; [done|].
  destruct (exponentPart r2); [|done].
  apply decimalValue_nonneg, digitsValue_nonneg.
  by rewrite forallb_app, Hip, Hfp.
Qed.

Lemma radixValue_nonneg radix s acc v :
  (0 ≤ radix)%Z → (0 ≤ acc)%Z → radixValue radix acc s = Some v → (0 ≤ v)%Z.
Proof.
  intros Hr. revert acc. induction s as [|c s IH]; intros acc Hacc; simpl.
  - by intros [= <-].
  - destruct (radixDigit radix c) as [d|] eqn:Hd; [|done].
    apply IH. unfold radixDigit in Hd.
    assert (0 ≤ d)%Z; [|nia].
    destruct (isDigit c) eqn:E1.
    { unfold isDigit in E1. apply andb_prop in E1 as [H1%N.leb_le _].
      destruct (_ <? _)%Z; [|done]. injection Hd as <-. lia. }
    destruct (andb (97 <=? c)%N _) eqn:E2.
    { apply andb_prop in E2 as [H1%N.leb_le _].
      destruct (_ <? _)%Z; [|done]. injection Hd as <-. lia. }
    destruct (andb (65 <=? c)%N _) eqn:E3.
    { apply andb_prop in E3 as [H1%N.leb_le _].
      destruct (_ <? _)%Z; [|done]. injection Hd as <-. lia. }
    by rewrite Z.ltb_irrefl in Hd.
Qed.

Lemma nonDecimalIntegerLiteral_nonneg s v :
  nonDecimalIntegerLiteral s = Some v → (0 ≤ v)%Z.
Proof.
  unfold nonDecimalIntegerLiteral.
  destruct s as [|z [|p [|d ds]]]; try done.
  destruct (z =? 48)%N; [|done].
  repeat (case_match; [apply radixValue_nonneg; lia|]). done.
Qed.

Lemma dropWhile_subseteq f (s : jsstring) : dropWhile f s ⊆ s.
Proof.
  induction s as [|c s IH]; simpl; [done|].
  destruct (f c); [|done]. by apply list_subseteq_cons.
Qed.

Lemma trimEnd_subseteq (s : jsstring) : trimEnd s ⊆ s.
Proof.
  induction s as [|c s IH]; simpl; [done|].
  destruct (trimEnd s) as [|x xs].
  - destruct (isWhiteSpace c); [apply list_subseteq_nil|].
    intros y. rewrite !elem_of_cons, elem_of_nil. tauto.
  - intros y. rewrite !(elem_of_cons _ y c). intros [->|Hy]; [by left|].
    right. by apply IH.
Qed.

Lemma trim_subseteq (s : jsstring) : trim s ⊆ s.
Proof.
  unfold trim, trimStart. etrans; [apply trimEnd_subseteq|].
  apply dropWhile_subseteq.
Qed.

Lemma StringToNumber_nonneg s :
  HYPHEN ∉ s → numLt (StringToNumber s) (Finite 0) = false.
Proof.
  intros Hs. unfold StringToNumber.
  pose proof (trim_subseteq s) as Hsub.
  destruct (trim s) as [|c r] eqn:Ht; [done|].
  destruct (nonDecimalIntegerLiteral (c :: r)) as [v|] eqn:Hv.
  { apply roundBinary64_nonneg; [|done].
    by eapply nonDecimalIntegerLiteral_nonneg. }
  destruct (c =? PLUS)%N; [apply strUnsignedDecimalLiteral_nonneg|].
  destruct (N.eqb_spec c HYPHEN) as [->|_];
    [|apply strUnsignedDecimalLiteral_nonneg].
  destruct Hs. apply Hsub. by left.
Qed.

Lemma filter_bool_subseteq (f : N → bool) (s : jsstring) : List.filter f s ⊆ s.
Proof. intros x. rewrite !list_elem_of_In, filter_In. tauto. Qed.

(** A token without a minus sign never decodes to a negative number. *)
Lemma toNumber_nonneg t : noMinus t → numLt (toNumber t) (Finite 0) = false.
Proof.
  intros Ht. destruct t as [s|]; [|done]. unfold toNumber.
  set (cleaned := trim _).
  assert (HYPHEN ∉ cleaned) as Hc.
  { intros Hin. apply (Ht s eq_refl).
    eapply filter_bool_subseteq, filter_bool_subseteq, trim_subseteq, Hin. }
  pose proof (StringToNumber_nonneg cleaned Hc).
  by destruct (isFinite _).
Qed.

(** ** What a returned record holds *)

Lemma first_three_columns (cols : list jsstring) :
  (10 ≤ length cols)%nat →
  ∃ c0 c1 c2, cols !! 0%nat = Some c0 ∧ cols !! 1%nat = Some c1
              ∧ cols !! 2%nat = Some c2.
Proof.
  intros H. destruct cols as [|c0 [|c1 [|c2 cols]]]; simpl in H; try lia.
  by exists c0, c1, c2.
Qed.

Lemma parseCSVRecord_cases line :
  let cols := parseCSVLine line in
  ((length cols < 10)%nat
   ∧ parseCSVRecord line
     = Throw (Error "CSV line too short to map Non-Comm columns"))
  ∨ ((10 ≤ length cols)%nat
     ∧ ∃ c0 c1 c2,
         cols !! 0%nat = Some c0 ∧ cols !! 1%nat = Some c1
         ∧ cols !! 2%nat = Some c2
         ∧ parseCSVRecord line
           = Return {| market := stripSurroundingQuotes c0;
                       reportDate := toISO (orElse c2 c1);
                       nonCommLong := toNumber (cols !! 8%nat);
                       nonCommShort := toNumber (cols !! 9%nat) |}).
Proof.
  intros cols. unfold parseCSVRecord. fold cols.
  destruct (Nat.ltb_spec (length cols) 10) as [Hlt|Hge]; [by left|right].
  split; [done|].
  destruct (first_three_columns cols Hge) as (c0 & c1 & c2 & H0 & H1 & H2).
  exists c0, c1, c2. unfold CSV_IDX_DATE_ISO. by rewrite H0, H1, H2.
Qed.

Lemma parseFixedWidth_cases line :
  let parts := splitColumns (trim line) in
  ((length parts < 5)%nat
   ∧ parseFixedWidth line = Throw (Error "Unexpected fixed-width layout"))
  ∨ ((5 ≤ length parts)%nat
     ∧ Forall (λ q, acceptedPair parts q = false) columnPairs
     ∧ parseFixedWidth line
       = Throw (Error "Could not infer Non-Comm columns in fixed-width line"))
  ∨ ((5 ≤ length parts)%nat
     ∧ ∃ m dtok pre p post,
         parts !! 0%nat = Some m ∧ parts !! 1%nat = Some dtok
         ∧ columnPairs = pre ++ p :: post
         ∧ Forall (λ q, acceptedPair parts q = false) pre
         ∧ acceptedPair parts p = true
         ∧ parseFixedWidth line
           = Return {| market := m; reportDate := toISO dtok;
                       nonCommLong := toNumber (parts !! p.1);
                       nonCommShort := toNumber (parts !! p.2) |}).
Proof.
  intros parts. rewrite parseFixedWidth_unfold. fold parts.
  destruct (Nat.ltb_spec (length parts) 5) as [Hlt|Hge]; [by left|right].
  destruct (first_two_columns parts Hge) as (m & dtok & H0 & H1).
  rewrite H0, H1.
  destruct (probePairs parts columnPairs) as [[a b]|] eqn:Hp.
  - right. split; [done|].
    apply probePairs_Some in Hp as (pre & p & post & ? & ? & ? & -> & ->).
    by exists m, dtok, pre, p, post.
  - left. by apply probePairs_None in Hp.
Qed.

(** C8, as the claim words it, fails in both formats: a token with a minus
    sign decodes to a negative number, and nothing rejects it. *)
Lemma parsed_counts_negative_counterexample :
  (∃ r, parseTargetLine (lit "M,250805,2025-08-05,,,,,100,-5,3") = Return r
        ∧ nonCommLong r = Finite (-5)
        ∧ numLt (nonCommLong r) (Finite 0) = true)
  ∧ (∃ r, parseTargetLine (lit "M  250805  5  -3  0") = Return r
          ∧ nonCommShort r = Finite (-3)
          ∧ numLt (nonCommShort r) (Finite 0) = true).
Proof. split; eexists; (split; [vm_compute; reflexivity|done]). Qed.

(** C8 (amended): in every record that either parser returns, nonCommLong
    and nonCommShort are the Numeric-Decoded tokens of the two columns read
    (columns 8 and 9 of a delimited line, one of the probed pairs of a
    fixed-width line); they are finite, and each is non-negative whenever its
    token holds no minus sign.  In the fixed-width format one of the two is
    strictly positive. *)
Theorem parsed_counts_sign (line : jsstring) (r : ParsedRecord) :
  parseTargetLine line = Return r →
  ∃ tL tS : option jsstring,
    nonCommLong r = toNumber tL ∧ nonCommShort r = toNumber tS
    ∧ isFinite (nonCommLong r) = true ∧ isFinite (nonCommShort r) = true
    ∧ (noMinus tL → numLt (nonCommLong r) (Finite 0) = false)
    ∧ (noMinus tS → numLt (nonCommShort r) (Finite 0) = false)
    ∧ (if includes line [COMMA]
       then tL = parseCSVLine line !! 8%nat ∧ tS = parseCSVLine line !! 9%nat
       else ∃ p, p ∈ columnPairs
                 ∧ tL = splitColumns (trim line) !! p.1
                 ∧ tS = splitColumns (trim line) !! p.2
                 ∧ (numLt (Finite 0) (nonCommLong r) = true
                    ∨ numLt (Finite 0) (nonCommShort r) = true)).
Proof.
  unfold parseTargetLine. destruct (includes line [COMMA]).
  - destruct (parseCSVRecord_cases line)
      as [[_ ->]|(_ & c0 & c1 & c2 & _ & _ & _ & ->)]; [done|].
    intros [= <-]. simpl. eexists _, _. split; [done|]. split; [done|].
    rewrite !isFinite_toNumber. repeat split; apply toNumber_nonneg.
  - destruct (parseFixedWidth_cases line)
      as [[_ ->]|[(_ & _ & ->)|(_ & m & dtok & pre & p & post & _ & _ & Hp
                                  & _ & Hacc & ->)]]; [done|done|].
    intros [= <-]. simpl. eexists _, _. split; [done|]. split; [done|].
    rewrite !isFinite_toNumber. repeat split; try apply toNumber_nonneg.
    exists p. split; [rewrite Hp, elem_of_app, elem_of_cons; auto|]. split; [done|]. split; [done|].
    unfold acceptedPair in Hacc. by apply orb_prop in Hacc.
Qed.

Lemma parsed_counts_sign_witness :
  ∃ r, parseTargetLine (lit "M,250805,2025-08-05,,,,,100000,30000,20000")
       = Return r
       ∧ numLt (nonCommLong r) (Finite 0) = false
       ∧ numLt (nonCommShort r) (Finite 0) = false.
Proof.
  eexists. split; [vm_compute; reflexivity|].
  destruct (parsed_counts_sign
              (lit "M,250805,2025-08-05,,,,,100000,30000,20000") _ eq_refl)
    as (tL & tS & _ & _ & _ & _ & HL & HS & Ht).
  change (includes _ _) with true in Ht. destruct Ht as [-> ->].
  split; [apply HL|apply HS]; intros s [= <-];
    intros Hin%list_elem_of_In; vm_compute in Hin; intuition discriminate.
Defined.

(** ** Absent columns *)







(** ** The run *)

Local Arguments findTargetLine : simpl never.
Local Arguments parseTargetLine : simpl never.
Local Arguments previousValues : simpl never.
Local Arguments numSub : simpl never.
Local Arguments envNumber : simpl never.
Local Arguments lit : simpl never.

Ltac run_main Hf Hq Hl Hr :=
  unfold main, mbind, M_bind, existsSync, readJSON, fetchText, throw,
    liftResult, mkdirSync, writeFileSync, mret, M_ret;
  repeat (progress
    (cbn beta iota;
     rewrite ?Hf, ?Hq, ?Hl, ?Hr, ?Z.eqb_refl;
     rewrite ?bool_decide_eq_true_2 by done;
     rewrite ?bool_decide_eq_false_2 by (by intros H; apply H);
     try (match goal with |- context [Z.eqb ?s 200] =>
            rewrite (proj2 (Z.eqb_neq s 200)) by done end))).

Lemma main_outcome_readable UM inp w prev :
  outFile w = JsonOf <$> prev →
  (fatal UM inp w ∧ ∃ e, main UM inp w = (w, Throw e))
  ∨ (¬ fatal UM inp w
     ∧ ∃ a, main UM inp w
            = ({| outFile := Some (JsonOf a); dataDir := true |}, Return ())).
Proof.
  intros Hf.
  assert (outFile w ≠ Some Malformed) as Hm by (rewrite Hf; by destruct prev).
  destruct (fetched inp) as [|s b] eqn:Hq.
  { left. split; [by apply fatal_request|]. eexists.
    destruct prev; simpl in Hf; run_main Hf Hq Hf Hf; reflexivity. }
  destruct (decide (s = 200)) as [->|Hs]; cycle 1.
  { left. split; [by eapply fatal_status|]. eexists.
    destruct prev; simpl in Hf; run_main Hf Hq Hf Hf; reflexivity. }
  destruct (findTargetLine UM (reportLines b)) as [[|c l]|] eqn:Hl.
  { left. split; [by eapply fatal_empty_line|]. eexists. unfold reportLines in Hl.
    destruct prev; simpl in Hf; run_main Hf Hq Hl Hf; reflexivity. }
  2: { left. split; [by eapply fatal_not_found|]. eexists.
       unfold reportLines in Hl.
       destruct prev; simpl in Hf; run_main Hf Hq Hl Hf; reflexivity. }
  destruct (parseTargetLine (c :: l)) as [r|e] eqn:Hr; cycle 1.
  { left. split; [by eapply fatal_parse|]. eexists. unfold reportLines in Hl.
    destruct prev; simpl in Hf; run_main Hf Hq Hl Hr; reflexivity. }
  right. split.
  { intros [H|H|s' b' H1 H2|b' H1 H2|b' H1 H2|b' l' e' H1 H2 H3];
      simplify_eq; try done; congruence. }
  unfold reportLines in Hl.
  destruct prev; simpl in Hf; eexists; run_main Hf Hq Hl Hr; reflexivity.
Qed.

Lemma main_outcome UM inp w :
  (fatal UM inp w ∧ ∃ e, main UM inp w = (w, Throw e))
  ∨ (¬ fatal UM inp w
     ∧ ∃ a, main UM inp w
            = ({| outFile := Some (JsonOf a); dataDir := true |}, Return ())).
Proof.
  destruct (outFile w) as [[a0|]|] eqn:Hf.
  - by apply (main_outcome_readable UM inp w (Some a0)).
  - left. split; [by apply fatal_snapshot|]. eexists.
    run_main Hf Hf Hf Hf. reflexivity.
  - by apply (main_outcome_readable UM inp w None).
Qed.

(** C9: a run ends with status 0 or 1; every fatal condition (a failed
    request, a status other than 200, no target line, a structural parse
    error, and also an unreadable prior snapshot) ends it with status 1 and
    leaves the world as it was: the file at the output path is neither
    written nor changed, and the directory is not created.  The file is
    written exactly when no fatal condition occurs, and then the status
    is 0. *)
Theorem run_writes_only_on_success (UM : N → list N) (inp : Inputs) (w : World) :
  let w' := (run UM inp w).1 in
  let status := (run UM inp w).2 in
  (status = 0 ∨ status = 1)
  ∧ (fatal UM inp w ↔ status = 1)
  ∧ (status = 1 → w' = w)
  ∧ (status = 0 → ∃ a, w' = {| outFile := Some (JsonOf a); dataDir := true |})
  ∧ (outFile w' ≠ outFile w → status = 0).
Proof.
  unfold run.
  destruct (main_outcome UM inp w) as [[Hf [e ->]]|[Hnf [a ->]]]; simpl.
  - split; [by right|]. done.
  - split; [by left|]. split; [done|]. split; [done|]. split; [by exists a|done].
Qed.

(** ** Date Decoder *)

Lemma matchClasses_length cls s :
  matchClasses cls s = true → length s = length cls.
Proof.
  revert s. induction cls as [|f cls IH]; intros [|c s]; simpl; try done.
  intros [_ H]%andb_prop. by rewrite (IH s H).
Qed.

Lemma matchClasses_app c1 c2 s :
  matchClasses (c1 ++ c2) s = true
  ↔ ∃ s1 s2, s = s1 ++ s2 ∧ matchClasses c1 s1 = true
             ∧ matchClasses c2 s2 = true.
Proof.
  revert s. induction c1 as [|f c1 IH]; intros s; simpl.
  - split.
    + intros H. by exists [], s.
    + intros ([|x s1] & s2 & -> & H1 & H2); done.
  - destruct s as [|c s].
    + split; [done|]. by intros ([|x s1] & s2 & ? & H1 & H2).
    + rewrite andb_true_iff, IH. split.
      * intros (Hf & s1 & s2 & -> & H1 & H2). exists (c :: s1), s2.
        simpl. by rewrite Hf.
      * intros ([|x s1] & s2 & Heq & H1 & H2); [done|].
        simpl in *. apply andb_prop in H1 as [Hf H1]. simplify_eq.
        split; [done|]. by exists s1, s2.
Qed.

Lemma matchClasses_digits n s :
  matchClasses (repeat isDigit n) s = true ↔ digits n s.
Proof.
  unfold digits. revert s. induction n as [|n IH]; intros [|c s]; simpl;
    try (split; [done|intros [? ?]; done]).
  rewrite !andb_true_iff, IH.
  split; intros (? & ? & ?); repeat split; try done; lia.
Qed.

Lemma matchClasses_unit k s : matchClasses [isUnit k] s = true ↔ s = [k].
Proof.
  destruct s as [|c [|d s]]; simpl; try (split; done).
  - unfold isUnit. rewrite andb_true_r, N.eqb_eq. naive_solver.
  - rewrite andb_false_r. split; done.
Qed.

Lemma ISOShape_iff md : matchClasses reISODate md = true ↔ ISOShape md.
Proof.
  change reISODate
    with (repeat isDigit 4 ++ [isUnit HYPHEN] ++ repeat isDigit 2
          ++ [isUnit HYPHEN] ++ repeat isDigit 2).
  unfold ISOShape.
  rewrite matchClasses_app.
  setoid_rewrite matchClasses_app. setoid_rewrite matchClasses_app.
  setoid_rewrite matchClasses_app.
  setoid_rewrite matchClasses_digits. setoid_rewrite matchClasses_unit.
  split.
  - intros (y & ? & -> & Hy & ? & ? & -> & -> & m & ? & -> & Hm & ? & d
            & -> & -> & Hd). by exists y, m, d.
  - intros (y & m & d & Hy & Hm & Hd & ->).
    exists y, ([HYPHEN] ++ m ++ [HYPHEN] ++ d). do 2 (split; [done|]).
    exists [HYPHEN], (m ++ [HYPHEN] ++ d). do 2 (split; [done|]).
    exists m, ([HYPHEN] ++ d). do 2 (split; [done|]).
    by exists [HYPHEN], d.
Qed.

Lemma YYMMDDShape_iff md : matchClasses reYYMMDD md = true ↔ YYMMDDShape md.
Proof.
  change reYYMMDD
    with (repeat isDigit 2 ++ repeat isDigit 2 ++ repeat isDigit 2).
  unfold YYMMDDShape.
  rewrite matchClasses_app. setoid_rewrite matchClasses_app.
  setoid_rewrite matchClasses_digits.
  split.
  - intros (yy & ? & -> & Hy & mm & dd & -> & Hm & Hd). by exists yy, mm, dd.
  - intros (yy & mm & dd & Hy & Hm & Hd & ->).
    exists yy, (mm ++ dd). do 2 (split; [done|]). by exists mm, dd.
Qed.

Lemma SlashShape_iff k md :
  matchClasses (reSlashDate k) md = true ↔ SlashShape k md.
Proof.
  change (reSlashDate k)
    with (repeat isDigit 2 ++ [isUnit SLASH] ++ repeat isDigit 2
          ++ [isUnit SLASH] ++ repeat isDigit k).
  unfold SlashShape.
  rewrite matchClasses_app.
  setoid_rewrite matchClasses_app. setoid_rewrite matchClasses_app.
  setoid_rewrite matchClasses_app.
  setoid_rewrite matchClasses_digits. setoid_rewrite matchClasses_unit.
  split.
  - intros (m & ? & -> & Hm & ? & ? & -> & -> & d & ? & -> & Hd & ? & yr
            & -> & -> & Hyr). by exists m, d, yr.
  - intros (m & d & yr & Hm & Hd & Hyr & ->).
    exists m, ([SLASH] ++ d ++ [SLASH] ++ yr). do 2 (split; [done|]).
    exists [SLASH], (d ++ [SLASH] ++ yr). do 2 (split; [done|]).
    exists d, ([SLASH] ++ yr). do 2 (split; [done|]).
    by exists [SLASH], yr.
Qed.

Lemma isDigit_bounds c : isDigit c = true ↔ (48 ≤ c ≤ 57)%N.
Proof. unfold isDigit. rewrite andb_true_iff, !N.leb_le. tauto. Qed.

Lemma isDigit_cases c :
  isDigit c = true →
  (c = 48 ∨ c = 49 ∨ c = 50 ∨ c = 51 ∨ c = 52 ∨ c = 53 ∨ c = 54 ∨ c = 55
   ∨ c = 56 ∨ c = 57)%N.
Proof. rewrite isDigit_bounds. lia. Qed.

(** [Number] of two digits is their decimal value, so the pivot compares
    that value with 70. *)
Lemma century_two_digits a b :
  isDigit a = true → isDigit b = true →
  century [a; b] = if (70 <? digitsValue [a; b])%Z then lit "19" else lit "20".
Proof.
  intros Ha%isDigit_cases Hb%isDigit_cases.
  repeat (destruct Ha as [Ha|Ha]); subst a;
    repeat (destruct Hb as [Hb|Hb]); subst b; vm_compute; reflexivity.
Qed.

Lemma digit_not_slash c : isDigit c = true → (c =? SLASH)%N = false.
Proof. rewrite isDigit_bounds, N.eqb_neq. unfold SLASH. lia. Qed.

Lemma splitOn_digits cur s :
  forallb isDigit s = true → splitOn SLASH cur s = [cur ++ s].
Proof.
  revert cur. induction s as [|c s IH]; intros cur; simpl.
  - by rewrite app_nil_r.
  - intros [Hc Hs]%andb_prop. rewrite (digit_not_slash c Hc), IH by done.
    by rewrite <- app_assoc.
Qed.

Lemma splitOn_digit c cur r :
  isDigit c = true → splitOn SLASH cur (c :: r) = splitOn SLASH (cur ++ [c]) r.
Proof. intros Hc. simpl. by rewrite digit_not_slash. Qed.

Lemma splitOn_slash cur r : splitOn SLASH cur (SLASH :: r) = cur :: splitOn SLASH [] r.
Proof. reflexivity. Qed.

Lemma digits2 s :
  digits 2 s → ∃ a b, s = [a; b] ∧ isDigit a = true ∧ isDigit b = true.
Proof.
  intros [Hl Hd]. destruct s as [|a [|b [|]]]; try done.
  simpl in Hd. rewrite andb_true_r in Hd. apply andb_prop in Hd as [??].
  by exists a, b.
Qed.

Lemma toISO_yymmdd yy mm dd :
  digits 2 yy → digits 2 mm → digits 2 dd →
  toISO (yy ++ mm ++ dd)
  = expandYear yy ++ [HYPHEN] ++ mm ++ [HYPHEN] ++ dd.
Proof.
  intros Hy Hm Hd.
  assert (matchClasses reYYMMDD (yy ++ mm ++ dd) = true) as H6
    by (apply YYMMDDShape_iff; by exists yy, mm, dd).
  destruct (digits2 yy Hy) as (a & b & -> & Ha & Hb).
  destruct (digits2 mm Hm) as (c & d & -> & _ & _).
  destruct (digits2 dd Hd) as (e & f & -> & _ & _).
  unfold toISO. rewrite bool_decide_eq_false_2 by done.
  destruct (matchClasses reISODate _) eqn:E;
    [by apply matchClasses_length in E|].
  rewrite H6. unfold expandYear.
  change (slice 0 2 ([a; b] ++ [c; d] ++ [e; f])) with [a; b].
  change (slice 2 4 ([a; b] ++ [c; d] ++ [e; f])) with [c; d].
  change (slice 4 6 ([a; b] ++ [c; d] ++ [e; f])) with [e; f].
  by rewrite century_two_digits.
Qed.

Lemma toISO_slash m d yr k :
  digits 2 m → digits 2 d → digits k yr → (2 ≤ k ≤ 4)%nat →
  toISO (m ++ [SLASH] ++ d ++ [SLASH] ++ yr)
  = (if (k =? 2)%nat then expandYear yr else yr)
    ++ [HYPHEN] ++ m ++ [HYPHEN] ++ d.
Proof.
  intros Hm Hd Hyr Hk.
  assert (matchClasses (reSlashDate k) (m ++ [SLASH] ++ d ++ [SLASH] ++ yr)
          = true) as Hre by (apply SlashShape_iff; by exists m, d, yr).
  destruct (digits2 m Hm) as (a & b & -> & Ha & Hb).
  destruct (digits2 d Hd) as (c & e & -> & Hc & He).
  destruct Hyr as [Hlen Hyr].
  unfold toISO. rewrite bool_decide_eq_false_2 by done.
  assert (isDigit SLASH = false) as Hs by reflexivity.
  assert (∀ X, matchClasses (isDigit :: isDigit :: isDigit :: X)
                 ([a; b] ++ [SLASH] ++ [c; e] ++ [SLASH] ++ yr) = false) as Hno.
  { intros X. simpl. by rewrite Ha, Hb. }
  unfold reISODate, reYYMMDD. simpl repeat. rewrite !Hno.
  assert (testSlashDate ([a; b] ++ [SLASH] ++ [c; e] ++ [SLASH] ++ yr) = true)
    as ->.
  { unfold testSlashDate.
    assert (k = 2 ∨ k = 3 ∨ k = 4)%nat as [->|[->| ->]] by lia;
      rewrite Hre; by rewrite ?orb_true_r. }
  change ([a; b] ++ [SLASH] ++ [c; e] ++ [SLASH] ++ yr)
    with (a :: b :: SLASH :: c :: e :: SLASH :: yr).
  rewrite (splitOn_digit a), (splitOn_digit b), splitOn_slash by done.
  rewrite (splitOn_digit c), (splitOn_digit e), splitOn_slash by done.
  rewrite splitOn_digits by done. simpl. rewrite Hlen.
  destruct (k =? 2)%nat eqn:Ek; [|done].
  apply Nat.eqb_eq in Ek as ->.
  destruct (digits2 yr (conj Hlen Hyr)) as (y1 & y2 & -> & H1 & H2).
  unfold expandYear. by rewrite century_two_digits.
Qed.

(** C4, as the claim words it, fails: the third pattern accepts a year of
    two to four digits, so a token with a three-digit year, which is none of
    the four shapes of the claim, is rewritten and not returned unchanged. *)
Lemma toISO_three_digit_year_counterexample :
  let md := lit "08/05/199" in
  ¬ ISOShape md ∧ ¬ YYMMDDShape md ∧ ¬ SlashShape 2 md ∧ ¬ SlashShape 4 md
  ∧ toISO md = lit "199-08-05"
  ∧ toISO md ≠ md.
Proof.
  simpl.
  rewrite <- ISOShape_iff, <- YYMMDDShape_iff, <- !SlashShape_iff.
  vm_compute. repeat split; discriminate.
Qed.

(** C4 (amended): the Date Decoder is a total function; it maps a canonical
    YYYY-MM-DD token to itself, a six-digit YYMMDD token to YYYY-MM-DD with
    the year expanded to 19YY when its value exceeds 70 and to 20YY
    otherwise, an MM/DD/YY token likewise, and an MM/DD/Y..Y token whose year
    has three or four digits to that year followed by -MM-DD; every other
    token is returned unchanged.  The tokens of the specification decode as
    listed. *)
Theorem toISO_decodes :
  (∀ md, ISOShape md → toISO md = md)
  ∧ (∀ yy mm dd, digits 2 yy → digits 2 mm → digits 2 dd →
       toISO (yy ++ mm ++ dd)
       = expandYear yy ++ [HYPHEN] ++ mm ++ [HYPHEN] ++ dd)
  ∧ (∀ m d yr, digits 2 m → digits 2 d → digits 2 yr →
       toISO (m ++ [SLASH] ++ d ++ [SLASH] ++ yr)
       = expandYear yr ++ [HYPHEN] ++ m ++ [HYPHEN] ++ d)
  ∧ (∀ m d yr, digits 2 m → digits 2 d → digits 3 yr ∨ digits 4 yr →
       toISO (m ++ [SLASH] ++ d ++ [SLASH] ++ yr)
       = yr ++ [HYPHEN] ++ m ++ [HYPHEN] ++ d)
  ∧ (∀ md, ¬ ISOShape md → ¬ YYMMDDShape md →
       ¬ SlashShape 2 md → ¬ SlashShape 3 md → ¬ SlashShape 4 md →
       toISO md = md)
  ∧ (∀ yy, digits 2 yy →
       expandYear yy
       = (if (70 <? digitsValue yy)%Z then lit "19" else lit "20") ++ yy
       ∧ century yy
         = if (70 <? digitsValue yy)%Z then lit "19" else lit "20")
  ∧ toISO (lit "250805") = lit "2025-08-05"
  ∧ toISO (lit "08/05/25") = lit "2025-08-05"
  ∧ toISO (lit "08/05/1995") = lit "1995-08-05"
  ∧ toISO (lit "2025-08-05") = lit "2025-08-05"
  ∧ toISO (lit "not-a-date") = lit "not-a-date"
  ∧ toISO (lit "710101") = lit "1971-01-01"
  ∧ toISO (lit "700101") = lit "2070-01-01".
Proof.
  split.
  { intros md H%ISOShape_iff. unfold toISO. rewrite H. by destruct (bool_decide _). }
  split; [apply toISO_yymmdd|].
  split.
  { intros m d yr Hm Hd Hyr. by rewrite (toISO_slash m d yr 2) by (done || lia). }
  split.
  { intros m d yr Hm Hd [Hyr|Hyr].
    - by rewrite (toISO_slash m d yr 3) by (done || lia).
    - by rewrite (toISO_slash m d yr 4) by (done || lia). }
  split.
  { intros md H1 H2 H3 H4 H5. unfold toISO, testSlashDate.
    rewrite <- ISOShape_iff in H1. rewrite <- YYMMDDShape_iff in H2.
    rewrite <- SlashShape_iff in H3, H4, H5.
    apply not_true_is_false in H1, H2, H3, H4, H5.
    rewrite H1, H2, H3, H4, H5. by destruct (bool_decide _). }
  split.
  { intros yy Hy. split; [done|].
    destruct (digits2 yy Hy) as (a & b & -> & Ha & Hb).
    by apply century_two_digits. }
  vm_compute. repeat split.
Qed.

(** ** Delimited parsing *)

Lemma quoteCount_snoc s ch :
  quoteCount (s ++ [ch])
  = (quoteCount s + if (ch =? DQUOTE)%N then 1 else 0)%nat.
Proof.
  unfold quoteCount. rewrite List.filter_app, length_app.
  change (List.filter (N.eqb DQUOTE) [ch])
    with (if (DQUOTE =? ch)%N then [ch] else []).
  rewrite (N.eqb_sym DQUOTE ch). by destruct (ch =? DQUOTE)%N.
Qed.

Lemma boundaries_snoc line ch :
  boundaries (line ++ [ch])
  = boundaries line
    ++ (if (ch =? COMMA)%N && Nat.even (quoteCount line)
        then [length line] else []).
Proof.
  unfold boundaries. rewrite length_app. simpl.
  rewrite Nat.add_1_r, seq_S, List.filter_app. simpl. f_equal.
  - apply List.filter_ext_in. intros i [_ Hi]%in_seq. simpl in Hi.
    unfold isBoundary, quotesBefore.
    rewrite lookup_app_l by done. by rewrite take_app_le by lia.
  - unfold isBoundary, quotesBefore.
    rewrite take_app_le, firstn_all by done.
    rewrite list_lookup_middle by done.
    destruct (N.eqb_spec ch COMMA) as [->|Hne].
    + by rewrite bool_decide_eq_true_2.
    + rewrite bool_decide_eq_false_2; [done|]. by intros [= ->].
Qed.

(** The state of the loop of [parseCSVLine] after a prefix of the line. *)
Lemma csv_loop_invariant line :
  let st := fold_left csvStep line csvInit in
  inQuotes st = Nat.odd (quoteCount line)
  ∧ length (out st) = length (boundaries line)
  ∧ Forall (λ c, DQUOTE ∉ c) (out st)
  ∧ DQUOTE ∉ cur st.
Proof.
  induction line as [|ch line IH] using rev_ind.
  - simpl. repeat split; [constructor|apply not_elem_of_nil].
  - rewrite fold_left_app. simpl. destruct IH as (Hq & Hlen & Hout & Hcur).
    set (st := fold_left csvStep line csvInit) in *.
    rewrite quoteCount_snoc, boundaries_snoc, length_app.
    unfold csvStep. destruct (N.eqb_spec ch DQUOTE) as [->|Hne]; simpl.
    + rewrite Hq, Nat.add_1_r, Nat.odd_succ, <- Nat.negb_odd.
      rewrite Nat.add_0_r. done.
    + rewrite Nat.add_0_r, <- Nat.negb_odd, <- Hq.
      destruct ((ch =? COMMA)%N && negb (inQuotes st)); simpl.
      * rewrite length_app. simpl. rewrite Hlen.
        repeat split; try done; [|apply not_elem_of_nil].
        apply Forall_app. split; [done|]. by constructor.
      * rewrite Nat.add_0_r. repeat split; try done.
        rewrite elem_of_app, list_elem_of_singleton. intros [?|?]; done.
Qed.

Lemma parseCSVLine_length line :
  length (parseCSVLine line) = S (length (boundaries line)).
Proof.
  unfold parseCSVLine. rewrite length_map, length_app. simpl.
  destruct (csv_loop_invariant line) as (_ & -> & _). lia.
Qed.

Lemma parseCSVLine_no_quote line : Forall (λ c, DQUOTE ∉ c) (parseCSVLine line).
Proof.
  unfold parseCSVLine. destruct (csv_loop_invariant line) as (_ & _ & Ho & Hc).
  apply Forall_map. apply Forall_app. split.
  - eapply list.Forall_impl; [exact Ho|].
    intros c Hn Hin. by apply Hn, trim_subseteq.
  - constructor; [|constructor]. intros Hin. by apply Hc, trim_subseteq.
Qed.

Lemma removeTrailingQuote_noop s : DQUOTE ∉ s → removeTrailingQuote s = s.
Proof.
  induction s as [|c s IH]; [done|].
  rewrite not_elem_of_cons. intros [Hc Hs]. simpl. destruct s as [|d s].
  - by rewrite (proj2 (N.eqb_neq c DQUOTE)) by done.
  - by rewrite IH.
Qed.

(** The fields of [parseCSVLine] hold no double quote, so the stripping of
    surrounding quotes leaves field 0 as it is. *)
Lemma stripSurroundingQuotes_noop s : DQUOTE ∉ s → stripSurroundingQuotes s = s.
Proof.
  intros Hs. unfold stripSurroundingQuotes. destruct s as [|c r]; [done|].
  apply not_elem_of_cons in Hs as Hs'. destruct Hs' as [Hc _].
  rewrite (proj2 (N.eqb_neq c DQUOTE)) by done.
  by apply removeTrailingQuote_noop.
Qed.

(** C2: a located line with a comma goes to the delimited parser.  Its
    fields are cut at the commas that have an even number of double quotes
    before them (one field more than such commas) and hold no quote; the
    structural error is thrown exactly when fewer than ten fields result;
    otherwise the record has market = field 0 with surrounding quotes
    stripped, reportDate = the Date-Decoded field 2, or field 1 when field 2
    is empty, nonCommLong and nonCommShort = the Numeric-Decoded fields 8
    and 9.  On the line of the end-to-end scenario the record holds 30000 and
    20000, and a first run on a report with that line writes the rows
    Net = 10000, Long = 30000, Short = 20000 with no previous values. *)
Theorem parseCSVRecord_fields (line : jsstring) :
  includes line [COMMA] = true →
  let cols := parseCSVLine line in
  parseTargetLine line = parseCSVRecord line
  ∧ length cols = S (length (boundaries line))
  ∧ Forall (λ c, DQUOTE ∉ c) cols
  ∧ ((length cols < 10)%nat
     ↔ parseCSVRecord line
       = Throw (Error "CSV line too short to map Non-Comm columns"))
  ∧ ((10 ≤ length cols)%nat →
     ∃ c0 c1 c2,
       cols !! 0%nat = Some c0 ∧ cols !! 1%nat = Some c1
       ∧ cols !! 2%nat = Some c2
       ∧ parseCSVRecord line
         = Return {| market := stripSurroundingQuotes c0;
                     reportDate :=
                       toISO (if bool_decide (c2 = []) then c1 else c2);
                     nonCommLong := toNumber (cols !! 8%nat);
                     nonCommShort := toNumber (cols !! 9%nat) |})
  ∧ parseTargetLine scenarioLine
    = Return {| market := lit "E-MINI NASDAQ-100 STOCK INDEX";
                reportDate := lit "2025-08-05";
                nonCommLong := Finite 30000;
                nonCommShort := Finite 20000 |}
  ∧ (run latin1_upper scenarioInputs firstRun).2 = 0
  ∧ writtenRows (run latin1_upper scenarioInputs firstRun).1
    = Some [ {| label := lit "Non-Comm Net"; value := Finite 10000;
                prev := None; max := Finite 500000 |};
             {| label := lit "Non-Comm Long"; value := Finite 30000;
                prev := None; max := Finite 600000 |};
             {| label := lit "Non-Comm Short"; value := Finite 20000;
                prev := None; max := Finite 600000 |} ].
Proof.
  intros Hcomma cols.
  split; [by unfold parseTargetLine; rewrite Hcomma|].
  split; [apply parseCSVLine_length|].
  split; [apply parseCSVLine_no_quote|].
  split.
  { destruct (parseCSVRecord_cases line)
      as [[Hlt ->]|(Hge & c0 & c1 & c2 & _ & _ & _ & ->)]; subst cols.
    - done.
    - split; [lia|done]. }
  split.
  { intros Hge.
    destruct (parseCSVRecord_cases line)
      as [[Hlt _]|(_ & c0 & c1 & c2 & H0 & H1 & H2 & ->)]; subst cols;
      [lia|].
    exists c0, c1, c2. repeat split; try done. by destruct c2. }
  vm_compute. repeat split.
Qed.

Lemma parseCSVRecord_fields_witness :
  length (parseCSVLine scenarioLine) = 10%nat
  ∧ parseTargetLine scenarioLine = parseCSVRecord scenarioLine.
Proof.
  assert (includes scenarioLine [COMMA] = true) as Hc
    by (vm_compute; reflexivity).
  destruct (parseCSVRecord_fields scenarioLine Hc) as (Hp & Hlen & _).
  split; [|exact Hp]. rewrite Hlen. vm_compute. reflexivity.
Defined.

(** ** Row Locator *)

Lemma startsWith_spec p s : startsWith p s = true ↔ ∃ b, s = p ++ b.
Proof.
  revert s. induction p as [|a p IH]; intros s; simpl.
  - split; [by exists s|done].
  - destruct s as [|c s].
    + split; [done|]. by intros [b ?].
    + rewrite andb_true_iff, N.eqb_eq, IH. split.
      * intros [-> [b ->]]. by exists b.
      * intros [b [= -> ->]]. split; [done|]. by exists b.
Qed.

Lemma includes_spec s p : includes s p = true ↔ substring p s.
Proof.
  unfold substring. induction s as [|c s IH]; simpl.
  - rewrite orb_false_r, startsWith_spec. split.
    + intros [b ->]. by exists [], b.
    + intros (a & b & H). symmetry in H.
      apply app_eq_nil in H as [-> H]. by exists b.
  - rewrite orb_true_iff, startsWith_spec, IH. split.
    + intros [[b ->]|(a & b & ->)]; [by exists [], b|by exists (c :: a), b].
    + intros ([|x a] & b & H); [left; by exists b|right].
      injection H as -> ->. by exists a, b.
Qed.

Lemma findIndex_first (f : jsstring → bool) a1 x a2 :
  Forall (λ y, f y = false) a1 → f x = true →
  findIndex f (a1 ++ x :: a2) = Some (length a1).
Proof.
  intros Ha1 Hx. unfold findIndex.
  assert (list_find (λ L, f L = true) (a1 ++ x :: a2) = Some (length a1, x))
    as ->; [|done].
  apply list_find_Some. split_and!; [by apply list_lookup_middle|done|].
  intros j y Hj Hlt.
  rewrite lookup_app_l in Hj by done.
  rewrite list.Forall_forall in Ha1.
  assert (f y = false) as Hy by (apply Ha1; by eapply list_elem_of_lookup_2).
  by rewrite Hy.
Qed.

Lemma findIndex_None (f : jsstring → bool) a :
  findIndex f a = None ↔ Forall (λ y, f y = false) a.
Proof.
  unfold findIndex. rewrite fmap_None, list_find_None.
  apply Forall_proper; [|done]. intros y. by destruct (f y).
Qed.

Lemma findIndex_Some (f : jsstring → bool) a i :
  findIndex f a = Some i →
  ∃ a1 x a2, a = a1 ++ x :: a2 ∧ i = length a1
             ∧ Forall (λ y, f y = false) a1 ∧ f x = true.
Proof.
  unfold findIndex. intros ([j x] & H & [= ->])%fmap_Some.
  apply list_find_Some in H as (Hx & Hfx & Hbefore).
  exists (take j a), x, (drop (S j) a).
  split; [by rewrite take_drop_middle|].
  assert (j < length a)%nat by by eapply lookup_lt_Some.
  split; [rewrite length_take; lia|]. split; [|done].
  apply list.Forall_forall. intros y [k Hk]%list_elem_of_lookup_1.
  apply lookup_take_Some in Hk as [Hk Hlt].
  specialize (Hbefore k y Hk Hlt). by destruct (f y).
Qed.

Section RowLocatorFacts.
Variable UM : N → list N.

Lemma hits_includes p l :
  includes (norm UM l) (norm UM p) = true ↔ hits UM p l.
Proof. apply includes_spec. Qed.

Lemma fuzzy_includes l :
  includes (norm UM l) (lit "NASDAQ") && includes (norm UM l) (lit "MINI") = true
  ↔ fuzzy UM l.
Proof. unfold fuzzy. by rewrite andb_true_iff, !includes_spec. Qed.

Lemma not_hits_includes p l :
  includes (norm UM l) (norm UM p) = false ↔ ¬ hits UM p l.
Proof. rewrite <- hits_includes. by destruct (includes _ _). Qed.

Lemma not_fuzzy_includes l :
  includes (norm UM l) (lit "NASDAQ") && includes (norm UM l) (lit "MINI") = false
  ↔ ¬ fuzzy UM l.
Proof. rewrite <- fuzzy_includes. by destruct (_ && _). Qed.

Lemma firstPatternIndex_None lines patterns :
  firstPatternIndex UM (map (norm UM) lines) patterns = None
  ↔ ∀ p l, p ∈ patterns → l ∈ lines → ¬ hits UM p l.
Proof.
  induction patterns as [|p ps IH]; simpl.
  - split; [|done]. intros _ p l Hp. by apply elem_of_nil in Hp.
  - destruct (findIndex _ _) as [i|] eqn:E.
    + split; [done|]. intros H. exfalso.
      apply findIndex_Some in E as (a1 & x & a2 & Ha & _ & _ & Hx).
      assert (x ∈ map (norm UM) lines) as Hin
        by (rewrite Ha, elem_of_app, elem_of_cons; auto).
      apply list_elem_of_fmap in Hin as (l & -> & Hl).
      apply hits_includes in Hx. apply (H p l); [by left|done|done].
    + rewrite IH. apply findIndex_None in E.
      rewrite list.Forall_forall in E. split.
      * intros H q l [->|Hq]%elem_of_cons Hl; [|by apply H].
        apply not_hits_includes, E. by apply list_elem_of_fmap_2.
      * intros H q l Hq Hl. apply H; [by right|done].
Qed.

Lemma firstPatternIndex_first ps1 p ps2 ls1 l ls2 :
  (∀ p' l', p' ∈ ps1 → l' ∈ ls1 ++ l :: ls2 → ¬ hits UM p' l') →
  (∀ l', l' ∈ ls1 → ¬ hits UM p l') →
  hits UM p l →
  firstPatternIndex UM (map (norm UM) (ls1 ++ l :: ls2)) (ps1 ++ p :: ps2)
  = Some (length ls1).
Proof.
  intros Hps1 Hls1 Hl. induction ps1 as [|q ps1 IH]; simpl.
  - rewrite map_app. simpl. rewrite findIndex_first.
    + by rewrite length_map.
    + apply Forall_map, list.Forall_forall. intros l' Hl'.
      by apply not_hits_includes, Hls1.
    + by apply hits_includes.
  - assert (findIndex (λ L, includes L (norm UM q))
              (map (norm UM) (ls1 ++ l :: ls2)) = None) as ->.
    { apply findIndex_None, Forall_map, list.Forall_forall. intros l' Hl'.
      apply not_hits_includes, Hps1; [by left|done]. }
    apply IH. intros p' l' Hp'. apply Hps1. by right.
Qed.

Lemma fuzzyIndex_None lines :
  fuzzyIndex (map (norm UM) lines) = None ↔ ∀ l, l ∈ lines → ¬ fuzzy UM l.
Proof.
  unfold fuzzyIndex. rewrite findIndex_None, Forall_map, list.Forall_forall.
  by setoid_rewrite not_fuzzy_includes.
Qed.

Lemma fuzzyIndex_first ls1 l ls2 :
  (∀ l', l' ∈ ls1 → ¬ fuzzy UM l') → fuzzy UM l →
  fuzzyIndex (map (norm UM) (ls1 ++ l :: ls2)) = Some (length ls1).
Proof.
  intros Hls1 Hl. unfold fuzzyIndex. rewrite map_app. simpl.
  rewrite findIndex_first.
  - by rewrite length_map.
  - apply Forall_map, list.Forall_forall. intros l' Hl'.
    by apply not_fuzzy_includes, Hls1.
  - by apply fuzzy_includes.
Qed.

Lemma targetIndex_in_range patterns lines i :
  targetIndex UM patterns lines = Some i → (i < length lines)%nat.
Proof.
  unfold targetIndex.
  assert (∀ f i, findIndex f (map (norm UM) lines) = Some i
                 → (i < length lines)%nat) as Hfind.
  { intros f j (a1 & x & a2 & Ha & -> & _)%findIndex_Some.
    rewrite <- (length_map (norm UM) lines), Ha, length_app. simpl. lia. }
  assert (∀ ps i, firstPatternIndex UM (map (norm UM) lines) ps = Some i
                  → (i < length lines)%nat) as Hfirst.
  { induction ps as [|p ps IH]; simpl; [done|]. intros j.
    destruct (findIndex _ _) as [k|] eqn:E; [|apply IH].
    intros [= <-]. by eapply Hfind. }
  destruct (firstPatternIndex _ _ _) as [j|] eqn:E.
  - intros [= <-]. by eapply Hfirst.
  - apply Hfind.
Qed.

Lemma findTargetLineWith_None patterns lines :
  findTargetLineWith UM patterns lines = None
  ↔ (∀ p l, p ∈ patterns → l ∈ lines → ¬ hits UM p l)
    ∧ (∀ l, l ∈ lines → ¬ fuzzy UM l).
Proof.
  unfold findTargetLineWith.
  destruct (targetIndex UM patterns lines) as [i|] eqn:E.
  - pose proof (targetIndex_in_range _ _ _ E) as Hi.
    apply lookup_lt_is_Some_2 in Hi as [l Hl]. rewrite Hl.
    split; [done|]. intros [H1 H2]. exfalso.
    unfold targetIndex in E.
    apply firstPatternIndex_None in H1. rewrite H1 in E.
    apply fuzzyIndex_None in H2. by rewrite H2 in E.
  - split; [|done]. intros _. unfold targetIndex in E.
    destruct (firstPatternIndex _ _ _) eqn:E1; [done|].
    by rewrite <- firstPatternIndex_None, <- fuzzyIndex_None.
Qed.

(** C6: the patterns are tried in their order, and for the first pattern
    that hits some line the first line it hits is returned, as it is in the
    report; the fuzzy rule is applied only when no pattern hits any line,
    and returns the first line that holds both NASDAQ and MINI once
    normalized; the result is null exactly when neither succeeds, and a
    returned line is always a line of the report. *)
Theorem findTargetLine_first_match (patterns lines : list jsstring) :
  (∀ ps1 p ps2 ls1 l ls2,
     patterns = ps1 ++ p :: ps2 → lines = ls1 ++ l :: ls2 →
     (∀ p' l', p' ∈ ps1 → l' ∈ lines → ¬ hits UM p' l') →
     (∀ l', l' ∈ ls1 → ¬ hits UM p l') →
     hits UM p l →
     findTargetLineWith UM patterns lines = Some l)
  ∧ (∀ ls1 l ls2,
       lines = ls1 ++ l :: ls2 →
       (∀ p' l', p' ∈ patterns → l' ∈ lines → ¬ hits UM p' l') →
       (∀ l', l' ∈ ls1 → ¬ fuzzy UM l') →
       fuzzy UM l →
       findTargetLineWith UM patterns lines = Some l)
  ∧ (findTargetLineWith UM patterns lines = None
     ↔ (∀ p l, p ∈ patterns → l ∈ lines → ¬ hits UM p l)
       ∧ (∀ l, l ∈ lines → ¬ fuzzy UM l))
  ∧ (∀ l, findTargetLineWith UM patterns lines = Some l → l ∈ lines)
  ∧ findTargetLine UM lines = findTargetLineWith UM candidatePatterns lines
  ∧ candidatePatterns
    = [ lit "NASDAQ MINI - CHICAGO MERCANTILE EXCHANGE";
        lit "E-MINI NASDAQ-100"; lit "MICRO E-MINI NASDAQ-100" ].
Proof.
  split.
  { intros ps1 p ps2 ls1 l ls2 -> -> Hps1 Hls1 Hl.
    unfold findTargetLineWith, targetIndex.
    rewrite firstPatternIndex_first by done. by apply list_lookup_middle. }
  split.
  { intros ls1 l ls2 -> Hps Hls1 Hl.
    unfold findTargetLineWith, targetIndex.
    apply firstPatternIndex_None in Hps. rewrite Hps.
    rewrite fuzzyIndex_first by done. by apply list_lookup_middle. }
  split; [apply findTargetLineWith_None|].
  split; [|done].
  intros l. unfold findTargetLineWith.
  destruct (targetIndex _ _ _); [|done]. apply list_elem_of_lookup_2.
Qed.

End RowLocatorFacts.

(** ** Text Normalizer *)

Lemma unifyDashes_map s : unifyDashes s = map unify s.
Proof. reflexivity. Qed.

Lemma isWhiteSpace_cases c :
  isWhiteSpace c = true →
  (c = 9 ∨ c = 10 ∨ c = 11 ∨ c = 12 ∨ c = 13 ∨ c = 32 ∨ c = 0xA0 ∨ c = 0x1680
   ∨ (0x2000 ≤ c ≤ 0x200A) ∨ c = 0x2028 ∨ c = 0x2029 ∨ c = 0x202F ∨ c = 0x205F
   ∨ c = 0x3000 ∨ c = 0xFEFF)%N.
Proof.
  unfold isWhiteSpace.
  rewrite !orb_true_iff, andb_true_iff, !N.eqb_eq, !N.leb_le. tauto.
Qed.

Lemma isDashVariant_cases c :
  isDashVariant c = true →
  (c = 0x2012 ∨ c = 0x2013 ∨ c = 0x2014 ∨ c = 0x2212)%N.
Proof. unfold isDashVariant. rewrite !orb_true_iff, !N.eqb_eq. tauto. Qed.

Lemma isSurrogate_bounds c : isSurrogate c = true ↔ (0xD800 ≤ c ≤ 0xDFFF)%N.
Proof.
  unfold isSurrogate, isLeadingSurrogate, isTrailingSurrogate.
  rewrite orb_true_iff, !andb_true_iff, !N.leb_le. lia.
Qed.

Lemma whitespace_not_dash c : isWhiteSpace c = true → isDashVariant c = false.
Proof.
  intros H%isWhiteSpace_cases. apply not_true_is_false.
  intros H'%isDashVariant_cases. lia.
Qed.

Lemma whitespace_unit c :
  isWhiteSpace c = true → (c ≤ 0xFFFF)%N ∧ isSurrogate c = false.
Proof.
  intros H%isWhiteSpace_cases. split; [lia|].
  apply not_true_is_false. rewrite isSurrogate_bounds. lia.
Qed.

Lemma dash_unit c :
  isDashVariant c = true → (c ≤ 0xFFFF)%N ∧ isSurrogate c = false.
Proof.
  intros H%isDashVariant_cases. split; [lia|].
  apply not_true_is_false. rewrite isSurrogate_bounds. lia.
Qed.

Lemma unify_not_whitespace c : isWhiteSpace c = false → isWhiteSpace (unify c) = false.
Proof. intros H. unfold unify. by destruct (isDashVariant c). Qed.

Lemma unify_not_dash c : isDashVariant (unify c) = false.
Proof. unfold unify. by destruct (isDashVariant c) eqn:E. Qed.

Lemma unify_whitespace c : isWhiteSpace c = true → unify c = c.
Proof. intros H. unfold unify. by rewrite whitespace_not_dash. Qed.

Lemma unify_unify c : unify (unify c) = unify c.
Proof. unfold unify at 1. by rewrite unify_not_dash. Qed.

Lemma isWhiteSpace_unify c : isWhiteSpace (unify c) = isWhiteSpace c.
Proof.
  destruct (isWhiteSpace c) eqn:E.
  - by rewrite unify_whitespace.
  - by apply unify_not_whitespace.
Qed.

(** *** The normalizer computes the normal form *)

Lemma trimStart_collapseFrom b x :
  trimStart (collapseFrom b x) = collapseFrom false (trimStart x).
Proof.
  unfold trimStart.
  revert b. induction x as [|c r IH]; intros b; simpl; [done|].
  destruct (isWhiteSpace c) eqn:E.
  - destruct b; simpl; by rewrite IH.
  - simpl. by rewrite E.
Qed.

Lemma normalFrom_AfterSpace r :
  normalFrom AfterSpace r
  = match normalFrom AtStart r with [] => [] | o => SPACE :: o end.
Proof.
  induction r as [|c r IH]; simpl; [done|].
  by destruct (isWhiteSpace c).
Qed.

Lemma normalFrom_InWord_AtStart r :
  normalFrom InWord r
  = match r with
    | [] => []
    | c :: _ => if isWhiteSpace c then normalFrom AfterSpace r
                else normalFrom AtStart r
    end.
Proof. destruct r as [|c r]; simpl; [done|]. by destruct (isWhiteSpace c). Qed.

Lemma trimEnd_collapseFrom s :
  trimEnd (collapseFrom true (map unify s)) = normalFrom AtStart s
  ∧ trimEnd (collapseFrom false (map unify s)) = normalFrom InWord s.
Proof.
  induction s as [|c r [IH1 IH2]]; simpl; [done|].
  rewrite isWhiteSpace_unify. destruct (isWhiteSpace c) eqn:E; simpl.
  - rewrite IH1. split; [done|].
    rewrite normalFrom_AfterSpace. by destruct (normalFrom AtStart r).
  - rewrite IH2, isWhiteSpace_unify, E.
    split; by destruct (normalFrom InWord r).
Qed.

Lemma trimStart_map_unify s : trimStart (map unify s) = map unify (trimStart s).
Proof.
  unfold trimStart.
  induction s as [|c r IH]; simpl; [done|].
  rewrite isWhiteSpace_unify. by destruct (isWhiteSpace c).
Qed.

Lemma normalFrom_trimStart s : normalFrom AtStart (trimStart s) = normalFrom AtStart s.
Proof.
  unfold trimStart.
  induction s as [|c r IH]; simpl; [done|].
  destruct (isWhiteSpace c) eqn:E; [done|]. simpl. by rewrite E.
Qed.

Lemma normalFrom_InWord_trimStart s :
  normalFrom InWord (trimStart s) = normalFrom AtStart (trimStart s).
Proof.
  unfold trimStart.
  induction s as [|c r IH]; simpl; [done|].
  destruct (isWhiteSpace c) eqn:E; [done|]. simpl. by rewrite E.
Qed.

(** The three replacements of [norm] before the upper-casing give the
    normal form. *)
Lemma trim_collapse_unify s :
  trim (collapseWhitespace (unifyDashes s)) = normalForm s.
Proof.
  unfold trim, collapseWhitespace, normalForm.
  rewrite trimStart_collapseFrom, unifyDashes_map, trimStart_map_unify.
  destruct (trimEnd_collapseFrom (trimStart s)) as [_ ->].
  by rewrite normalFrom_InWord_trimStart, normalFrom_trimStart.
Qed.

(** *** The normal form as a scan *)

Lemma normalFrom_app st a x :
  normalFrom st (a ++ x) = normalFrom st a ++ normalFrom (scanAfter st a) x.
Proof.
  revert st. induction a as [|c a IH]; intros st; simpl; [done|].
  unfold scanStep. destruct (isWhiteSpace c); [apply IH|].
  by rewrite IH, <- !app_assoc.
Qed.

Lemma scanAfter_app st a x : scanAfter st (a ++ x) = scanAfter (scanAfter st a) x.
Proof. apply fold_left_app. Qed.

Lemma afterWhitespace_twice st :
  afterWhitespace (afterWhitespace st) = afterWhitespace st.
Proof. by destruct st. Qed.

Lemma normalFrom_whitespace st w :
  forallb isWhiteSpace w = true →
  normalFrom st w = []
  ∧ scanAfter st w = match w with [] => st | _ => afterWhitespace st end.
Proof.
  revert st. induction w as [|c w IH]; intros st; simpl; [done|].
  intros [Hc Hw]%andb_prop. unfold scanStep. rewrite Hc.
  destruct (IH (afterWhitespace st) Hw) as [-> ->].
  split; [done|]. destruct w; [done|]. apply afterWhitespace_twice.
Qed.

Lemma normalFrom_plain st x y :
  x ≠ [] → Forall plain x →
  normalFrom st (x ++ y) = pendingSpace st ++ x ++ normalFrom InWord y.
Proof.
  intros Hx Hp. destruct x as [|c x]; [done|clear Hx].
  apply list.Forall_cons in Hp as [[Hw Hd] Hp]. simpl. rewrite Hw.
  unfold unify. rewrite Hd. do 2 f_equal.
  induction Hp as [|d x [Hw' Hd'] _ IH]; simpl; [done|].
  rewrite Hw'. unfold unify. rewrite Hd'. simpl. by rewrite IH.
Qed.

(** The normal form of a normal form is itself. *)
Lemma normalFrom_normalFrom st s :
  normalFrom (match st with AfterSpace => InWord | _ => st end)
             (normalFrom st s)
  = normalFrom st s.
Proof.
  revert st. induction s as [|c s IH]; intros st; simpl; [by destruct st|].
  destruct (isWhiteSpace c) eqn:E.
  - rewrite <- (IH (afterWhitespace st)) at 2. by destruct st.
  - specialize (IH InWord). simpl in IH.
    destruct st; simpl; rewrite ?unify_not_whitespace by done; simpl;
      by rewrite unify_unify, IH.
Qed.

Lemma normalForm_idempotent s : normalForm (normalForm s) = normalForm s.
Proof. apply (normalFrom_normalFrom AtStart). Qed.

Lemma normalForm_dash a c b :
  isDashVariant c = true →
  normalForm (a ++ [c] ++ b) = normalForm (a ++ [HYPHEN] ++ b).
Proof.
  intros Hc. unfold normalForm. rewrite !normalFrom_app. f_equal. simpl.
  destruct (dash_unit c Hc) as [_ Hs].
  assert (isWhiteSpace c = false) as Hw.
  { apply not_true_is_false. intros H%whitespace_not_dash. congruence. }
  unfold scanStep, unify. rewrite Hw, Hc. reflexivity.
Qed.

Lemma normalForm_whitespace_run a w1 w2 b :
  w1 ≠ [] → w2 ≠ [] →
  forallb isWhiteSpace w1 = true → forallb isWhiteSpace w2 = true →
  normalForm (a ++ w1 ++ b) = normalForm (a ++ w2 ++ b).
Proof.
  intros H1 H2 Hw1 Hw2. unfold normalForm. rewrite !normalFrom_app. f_equal.
  destruct (normalFrom_whitespace (scanAfter AtStart a) w1 Hw1) as [-> ->].
  destruct (normalFrom_whitespace (scanAfter AtStart a) w2 Hw2) as [-> ->].
  by destruct w1, w2.
Qed.

Lemma normalForm_leading w s :
  forallb isWhiteSpace w = true → normalForm (w ++ s) = normalForm s.
Proof.
  intros Hw. unfold normalForm. rewrite normalFrom_app.
  destruct (normalFrom_whitespace AtStart w Hw) as [-> ->]. by destruct w.
Qed.

Lemma normalForm_trailing w s :
  forallb isWhiteSpace w = true → normalForm (s ++ w) = normalForm s.
Proof.
  intros Hw. unfold normalForm. rewrite normalFrom_app.
  destruct (normalFrom_whitespace (scanAfter AtStart s) w Hw) as [-> _].
  apply app_nil_r.
Qed.

Lemma codeUnits_normalFrom st s : codeUnits s → codeUnits (normalFrom st s).
Proof.
  unfold codeUnits. intros Hs. revert st.
  induction Hs as [|c s Hc _ IH]; intros st; simpl; [constructor|].
  destruct (isWhiteSpace c); [apply IH|].
  apply Forall_app. split; [destruct st; repeat constructor; done|].
  constructor; [|apply IH]. unfold unify.
  destruct (isDashVariant c); [done|exact Hc].
Qed.

(** *** Mappings that keep the classes commute with the normal form *)

Lemma plain_unify c : plain c → unify c = c.
Proof. intros [_ Hd]. unfold unify. by rewrite Hd. Qed.

Lemma flat_map_pendingSpace g st :
  g SPACE = [SPACE] → flat_map g (pendingSpace st) = pendingSpace st.
Proof. intros H. destruct st; simpl; by rewrite ?H. Qed.

Lemma normalFrom_flat_map g st s :
  g SPACE = [SPACE] → g HYPHEN = [HYPHEN] →
  Forall (keepsClasses g) s →
  normalFrom st (flat_map g s) = flat_map g (normalFrom st s).
Proof.
  intros Hsp Hhy Hs. revert st.
  induction Hs as [|c s (Hw & Hd & Hne & Hp) _ IH]; intros st; simpl; [done|].
  destruct (isWhiteSpace c) eqn:Ew.
  { rewrite Hw by done. simpl. rewrite Ew. apply IH. }
  destruct (isDashVariant c) eqn:Ed.
  { rewrite Hd by done. simpl. rewrite Ew, flat_map_app. simpl.
    rewrite flat_map_pendingSpace by done. unfold unify. rewrite Ed, Hhy.
    simpl. by rewrite IH. }
  rewrite normalFrom_plain by (done || by apply Hp).
  rewrite flat_map_app. simpl. rewrite flat_map_pendingSpace by done.
  unfold unify. rewrite Ed. by rewrite IH.
Qed.

(** *** Code points *)

Lemma leading_not_trailing c :
  isLeadingSurrogate c = true → isTrailingSurrogate c = false.
Proof.
  unfold isLeadingSurrogate, isTrailingSurrogate.
  intros [H1%N.leb_le H2%N.leb_le]%andb_prop.
  rewrite (proj2 (N.leb_gt 0xDC00 c)); [done|lia].
Qed.

Lemma StringToCodePoints_pair c d r :
  isLeadingSurrogate c && isTrailingSurrogate d = true →
  StringToCodePoints (c :: d :: r)
  = UTF16SurrogatePairToCodePoint c d :: StringToCodePoints r.
Proof. intros H. simpl. by rewrite H. Qed.

Lemma StringToCodePoints_single c r :
  isLeadingSurrogate c && headTrail r = false →
  StringToCodePoints (c :: r) = c :: StringToCodePoints r.
Proof. intros H. destruct r as [|d r]; simpl in *; [done|]. by rewrite H. Qed.

(** Induction along the decoding of a string. *)
Lemma code_point_ind (P : jsstring → Prop) :
  P [] →
  (∀ c d r, isLeadingSurrogate c && isTrailingSurrogate d = true →
            P r → P (c :: d :: r)) →
  (∀ c r, isLeadingSurrogate c && headTrail r = false → P r → P (c :: r)) →
  ∀ s, P s.
Proof.
  intros Hnil Hpair Hsingle s.
  assert (∀ n s, (length s ≤ n)%nat → P s) as H; [|by apply (H (length s))].
  clear s. induction n as [|n IH]; intros s Hlen.
  { destruct s; [done|simpl in Hlen; lia]. }
  destruct s as [|c [|d r]]; [done| |].
  - apply Hsingle; [by rewrite andb_false_r|done].
  - destruct (isLeadingSurrogate c && isTrailingSurrogate d) eqn:E.
    + apply Hpair; [done|]. apply IH. simpl in Hlen. lia.
    + apply Hsingle; [done|]. apply IH. simpl in *. lia.
Qed.

Lemma pair_code_point c d :
  isLeadingSurrogate c && isTrailingSurrogate d = true →
  (0x10000 ≤ UTF16SurrogatePairToCodePoint c d ≤ 0x10FFFF)%N.
Proof.
  unfold isLeadingSurrogate, isTrailingSurrogate, UTF16SurrogatePairToCodePoint.
  rewrite !andb_true_iff, !N.leb_le. lia.
Qed.

Lemma astral_plain c : (0x10000 ≤ c)%N → plain c ∧ isSurrogate c = false.
Proof.
  intros Hc. split; [split|]; apply not_true_is_false.
  - intros H%isWhiteSpace_cases. lia.
  - intros H%isDashVariant_cases. lia.
  - rewrite isSurrogate_bounds. lia.
Qed.

Lemma surrogate_plain c : isSurrogate c = true → plain c.
Proof.
  rewrite isSurrogate_bounds. intros Hc. split; apply not_true_is_false.
  - intros H%isWhiteSpace_cases. lia.
  - intros H%isDashVariant_cases. lia.
Qed.

Lemma leading_surrogate c : isLeadingSurrogate c = true → isSurrogate c = true.
Proof. intros H. unfold isSurrogate. by rewrite H. Qed.

Lemma trailing_surrogate c : isTrailingSurrogate c = true → isSurrogate c = true.
Proof. intros H. unfold isSurrogate. by rewrite H, orb_true_r. Qed.

Lemma headTrail_normalFrom st r :
  st ≠ AtStart → headTrail (normalFrom st r) = true → headTrail r = true.
Proof.
  intros Hst. destruct r as [|d r]; simpl; [done|].
  destruct (isWhiteSpace d) eqn:Ew.
  - destruct st; [done| |]; simpl; rewrite normalFrom_AfterSpace;
      by destruct (normalFrom AtStart r).
  - destruct st; [done| |]; simpl; [|done].
    unfold unify. by destruct (isDashVariant d).
Qed.

Lemma normalFrom_StringToCodePoints st s :
  normalFrom st (StringToCodePoints s) = StringToCodePoints (normalFrom st s).
Proof.
  revert st. induction s as [|c d r Hcd IH|c r Hc IH] using code_point_ind;
    intros st; [done| |].
  - rewrite StringToCodePoints_pair by done.
    apply andb_prop in Hcd as Hcd'. destruct Hcd' as [Hl Ht].
    destruct (surrogate_plain c (leading_surrogate c Hl)) as [Hcw Hcd'].
    destruct (surrogate_plain d (trailing_surrogate d Ht)) as [Hdw Hdd].
    destruct (astral_plain _ (proj1 (pair_code_point c d Hcd)))
      as [[Hpw Hpd] _].
    simpl. rewrite Hcw, Hdw, Hpw. unfold unify. rewrite Hcd', Hdd, Hpd.
    rewrite IH. destruct st; simpl; by rewrite ?Hcd.
  - rewrite StringToCodePoints_single by done. simpl.
    destruct (isWhiteSpace c) eqn:Ew; [apply IH|].
    rewrite IH.
    assert (StringToCodePoints (unify c :: normalFrom InWord r)
            = unify c :: StringToCodePoints (normalFrom InWord r)) as Hu.
    { apply StringToCodePoints_single.
      destruct (isLeadingSurrogate (unify c)) eqn:El; [|done].
      destruct (headTrail (normalFrom InWord r)) eqn:Eh; [|done].
      apply headTrail_normalFrom in Eh; [|done].
      assert (unify c = c) as Hcc.
      { unfold unify in *. destruct (isDashVariant c); [done|done]. }
      rewrite Hcc in El. by rewrite El, Eh in Hc. }
    destruct st; cbn [pendingSpace app];
      rewrite ?(StringToCodePoints_single SPACE) by done; by rewrite Hu.
Qed.

Lemma encode_astral c :
  (0xFFFF < c ≤ 0x10FFFF)%N →
  let h := ((c - 0x10000) / 0x400 + 0xD800)%N in
  let l := ((c - 0x10000) mod 0x400 + 0xDC00)%N in
  UTF16EncodeCodePoint c = [h; l]
  ∧ isLeadingSurrogate h && isTrailingSurrogate l = true
  ∧ UTF16SurrogatePairToCodePoint h l = c.
Proof.
  intros Hc h l. unfold UTF16EncodeCodePoint.
  rewrite (proj2 (N.leb_gt c 0xFFFF)) by lia. split; [done|].
  pose proof (N.Div0.div_mod (c - 0x10000) 0x400) as Hdm.
  assert ((c - 0x10000) mod 0x400 < 0x400)%N as Hm
    by (by apply N.mod_upper_bound).
  assert ((c - 0x10000) / 0x400 ≤ 0x3FF)%N as Hq.
  { apply N.lt_succ_r, N.Div0.div_lt_upper_bound. lia. }
  unfold isLeadingSurrogate, isTrailingSurrogate, UTF16SurrogatePairToCodePoint.
  subst h l. revert Hdm Hm Hq.
  generalize ((c - 0x10000) / 0x400)%N ((c - 0x10000) mod 0x400)%N.
  intros q m Hdm Hm Hq. rewrite !andb_true_iff, !N.leb_le. lia.
Qed.

Lemma encode_unit c : (c ≤ 0xFFFF)%N → UTF16EncodeCodePoint c = [c].
Proof.
  intros Hc. unfold UTF16EncodeCodePoint. by rewrite (proj2 (N.leb_le c 0xFFFF)).
Qed.

Lemma keepsClasses_encode c :
  (c ≤ 0x10FFFF)%N → keepsClasses UTF16EncodeCodePoint c.
Proof.
  intros Hc. unfold keepsClasses.
  destruct (N.le_gt_cases c 0xFFFF) as [Hu|Ha].
  - rewrite encode_unit by done. repeat split; try done.
    intros Hp. by constructor.
  - destruct (encode_astral c) as (-> & [Hh Hl]%andb_prop & _); [lia|].
    destruct (astral_plain c) as [[Hw Hd] _]; [lia|].
    split; [congruence|]. split; [congruence|]. split; [done|].
    intros _. constructor; [|constructor; [|constructor]].
    + by apply surrogate_plain, leading_surrogate.
    + by apply surrogate_plain, trailing_surrogate.
Qed.

Lemma code_points_range s :
  codeUnits s → Forall (λ c, (c ≤ 0x10FFFF)%N) (StringToCodePoints s).
Proof.
  unfold codeUnits.
  induction s as [|c d r Hcd IH|c r Hc IH] using code_point_ind; intros Hs.
  - constructor.
  - rewrite StringToCodePoints_pair by done.
    apply list.Forall_cons in Hs as [_ [_ Hr]%list.Forall_cons].
    constructor; [|by apply IH]. by apply pair_code_point.
  - rewrite StringToCodePoints_single by done.
    apply list.Forall_cons in Hs as [Hcu Hr].
    constructor; [lia|by apply IH].
Qed.

Section UpperCase.
Variable UM : N → list N.
Hypothesis table : UpperCaseTable UM.

Lemma keepsClasses_upper c : keepsClasses UM c.
Proof.
  destruct table. unfold keepsClasses. repeat split; auto.
  intros [Hw Hd]. apply list.Forall_forall. intros d Hin. split; eauto.
Qed.

Lemma upper_flat_map_range l :
  Forall (λ c, (c ≤ 0x10FFFF)%N) l →
  Forall (λ c, (c ≤ 0x10FFFF)%N) (flat_map UM l).
Proof.
  intros Hl. induction Hl as [|c l Hc _ IH]; simpl; [constructor|].
  apply Forall_app. split; [|done].
  apply list.Forall_forall. intros d Hd. by eapply (upper_range UM table).
Qed.

(** Upper-casing commutes with the normal form. *)
Lemma normalForm_toUpperCase s :
  codeUnits s →
  normalForm (toUpperCase UM s) = toUpperCase UM (normalForm s).
Proof.
  intros Hs. unfold normalForm, toUpperCase, CodePointsToString.
  rewrite normalFrom_flat_map; [f_equal|done|done|].
  - rewrite normalFrom_flat_map; [f_equal| | |].
    + apply normalFrom_StringToCodePoints.
    + apply (upper_whitespace UM table). reflexivity.
    + apply (upper_hyphen UM table).
    + apply list.Forall_forall. intros c _. apply keepsClasses_upper.
  - eapply list.Forall_impl; [apply upper_flat_map_range, code_points_range, Hs|].
    intros c Hc. by apply keepsClasses_encode.
Qed.

(** *** Upper-casing twice *)

Lemma flat_map_upper_twice l : flat_map UM (flat_map UM l) = flat_map UM l.
Proof.
  induction l as [|c l IH]; simpl; [done|].
  by rewrite flat_map_app, IH, (upper_idempotent UM table).
Qed.

Lemma headTrail_code_points s :
  headTrail (StringToCodePoints s) = true → headTrail s = true.
Proof.
  destruct s as [|c [|d r]]; simpl; try done.
  destruct (isLeadingSurrogate c && isTrailingSurrogate d) eqn:E; [|done].
  simpl. destruct (astral_plain _ (proj1 (pair_code_point c d E))) as [_ Hs].
  intros Ht%trailing_surrogate. congruence.
Qed.

Lemma noPair_code_points s : noPair (StringToCodePoints s).
Proof.
  induction s as [|c d r Hcd IH|c r Hc IH] using code_point_ind; [done| |].
  - rewrite StringToCodePoints_pair by done. split; [|done].
    destruct (astral_plain _ (proj1 (pair_code_point c d Hcd))) as [_ Hs].
    destruct (isLeadingSurrogate (UTF16SurrogatePairToCodePoint c d)) eqn:El;
      [|done].
    apply leading_surrogate in El. congruence.
  - rewrite StringToCodePoints_single by done. split; [|done].
    destruct (isLeadingSurrogate c) eqn:El; [|done].
    destruct (headTrail (StringToCodePoints r)) eqn:Eh; [|done].
    apply headTrail_code_points in Eh. by rewrite Eh in Hc.
Qed.

Lemma headTrail_upper l : headTrail (flat_map UM l) = true → headTrail l = true.
Proof.
  destruct l as [|c l]; simpl; [done|].
  destruct (isSurrogate c) eqn:Es.
  - by rewrite (upper_surrogate UM table c Es).
  - pose proof (upper_nonempty UM table c) as Hne.
    pose proof (upper_no_surrogate UM table c) as Hns.
    destruct (UM c) as [|x xs]; [done|]. simpl.
    intros Ht%trailing_surrogate.
    rewrite (Hns x Es) in Ht; [done|by left].
Qed.

Lemma noPair_app_plain x y :
  Forall (λ c, isSurrogate c = false) x → noPair y → noPair (x ++ y).
Proof.
  intros Hx Hy. induction Hx as [|c x Hc _ IH]; simpl; [done|].
  split; [|done]. destruct (isLeadingSurrogate c) eqn:El; [|done].
  apply leading_surrogate in El. congruence.
Qed.

Lemma noPair_upper l : noPair l → noPair (flat_map UM l).
Proof.
  induction l as [|c l IH]; simpl; [done|]. intros [Hc Hl].
  destruct (isSurrogate c) eqn:Es.
  - rewrite (upper_surrogate UM table c Es). simpl. split; [|by apply IH].
    destruct (isLeadingSurrogate c) eqn:El; [|done].
    destruct (headTrail (flat_map UM l)) eqn:Eh; [|done].
    apply headTrail_upper in Eh. by rewrite Eh in Hc.
  - apply noPair_app_plain; [|by apply IH].
    apply list.Forall_forall. intros d Hd.
    by apply (upper_no_surrogate UM table c).
Qed.

Lemma headTrail_encode l :
  Forall (λ c, (c ≤ 0x10FFFF)%N) l →
  headTrail (CodePointsToString l) = true → headTrail l = true.
Proof.
  destruct l as [|c l]; simpl; [done|]. intros [Hc _]%list.Forall_cons.
  destruct (N.le_gt_cases c 0xFFFF) as [Hu|Ha].
  - by rewrite encode_unit.
  - destruct (encode_astral c) as (-> & [Hh _]%andb_prop & _); [lia|].
    simpl. by rewrite (leading_not_trailing _ Hh).
Qed.

(** Decoding the encoding of code points gives them back. *)
Lemma StringToCodePoints_CodePointsToString l :
  Forall (λ c, (c ≤ 0x10FFFF)%N) l → noPair l →
  StringToCodePoints (CodePointsToString l) = l.
Proof.
  intros Hl. induction Hl as [|c l Hc Hl IH]; [done|]. intros [Hp Hn].
  change (CodePointsToString (c :: l))
    with (UTF16EncodeCodePoint c ++ CodePointsToString l).
  destruct (N.le_gt_cases c 0xFFFF) as [Hu|Ha].
  - rewrite encode_unit by done. simpl app.
    rewrite StringToCodePoints_single, IH; [done|done|].
    destruct (isLeadingSurrogate c) eqn:El; [|done].
    destruct (headTrail (CodePointsToString l)) eqn:Eh; [|done].
    apply headTrail_encode in Eh; [|done]. by rewrite Eh in Hp.
  - destruct (encode_astral c) as (-> & Hhl & Hpair); [lia|].
    simpl app. rewrite StringToCodePoints_pair by done.
    by rewrite Hpair, IH.
Qed.

Lemma toUpperCase_idempotent s :
  codeUnits s → toUpperCase UM (toUpperCase UM s) = toUpperCase UM s.
Proof.
  intros Hs. unfold toUpperCase.
  rewrite StringToCodePoints_CodePointsToString.
  - by rewrite flat_map_upper_twice.
  - by apply upper_flat_map_range, code_points_range.
  - apply noPair_upper, noPair_code_points.
Qed.

(** [norm] is the upper case of the normal form. *)
Lemma norm_normalForm s : norm UM s = toUpperCase UM (normalForm s).
Proof. unfold norm. by rewrite trim_collapse_unify. Qed.

Lemma norm_idempotent s : codeUnits s → norm UM (norm UM s) = norm UM s.
Proof.
  intros Hs. rewrite !norm_normalForm.
  assert (codeUnits (normalForm s)) as Hn by by apply codeUnits_normalFrom.
  rewrite normalForm_toUpperCase by done.
  by rewrite normalForm_idempotent, toUpperCase_idempotent.
Qed.

Lemma norm_sameRendering s t : sameRendering UM s t → norm UM s = norm UM t.
Proof.
  induction 1 as [s|s t _ IH|s t u _ IH1 _ IH2|a c b Hc|a w1 w2 b H1 H2 Hw1 Hw2
                  |w s Hw|w s Hw|s t Hs Ht Hst]; rewrite ?norm_normalForm in *.
  - done.
  - done.
  - congruence.
  - by rewrite normalForm_dash.
  - by rewrite (normalForm_whitespace_run a w1 w2 b).
  - by rewrite normalForm_leading.
  - by rewrite normalForm_trailing.
  - by rewrite <- !normalForm_toUpperCase, Hst.
Qed.

End UpperCase.

(** *** The Row Locator on renderings *)

Lemma firstPatternIndex_renderings UM nl ps ps' :
  map (norm UM) ps = map (norm UM) ps' →
  firstPatternIndex UM nl ps = firstPatternIndex UM nl ps'.
Proof.
  revert ps'. induction ps as [|p ps IH]; intros [|p' ps']; simpl; try done.
  intros [= Hp Hps]. rewrite Hp. by rewrite (IH ps').
Qed.

Lemma targetIndex_renderings UM ps ps' ls ls' :
  map (norm UM) ps = map (norm UM) ps' →
  map (norm UM) ls = map (norm UM) ls' →
  targetIndex UM ps ls = targetIndex UM ps' ls'.
Proof.
  intros Hps Hls. unfold targetIndex. rewrite Hls.
  by rewrite (firstPatternIndex_renderings UM _ ps ps').
Qed.

Lemma map_norm_renderings UM (table : UpperCaseTable UM) l l' :
  Forall2 (sameRendering UM) l l' → map (norm UM) l = map (norm UM) l'.
Proof.
  induction 1 as [|s t l l' Hst _ IH]; simpl; [done|].
  by rewrite IH, (norm_sameRendering UM table s t).
Qed.

(** *** A table for the examples *)

Lemma latin1_upper_cases c :
  ((97 ≤ c ≤ 122)%N ∧ latin1_upper c = [(c - 32)%N])
  ∨ (c = 0xDF%N ∧ latin1_upper c = [83%N; 83%N])
  ∨ (c = 0xB5%N ∧ latin1_upper c = [0x39C%N])
  ∨ (c = 0xFF%N ∧ latin1_upper c = [0x178%N])
  ∨ ((0xE0 ≤ c ≤ 0xFE)%N ∧ c ≠ 0xF7%N ∧ latin1_upper c = [(c - 32)%N])
  ∨ ((c < 97 ∨ 122 < c)%N ∧ c ≠ 0xDF%N ∧ c ≠ 0xB5%N ∧ c ≠ 0xFF%N
     ∧ (c < 0xE0 ∨ 0xFE < c ∨ c = 0xF7)%N ∧ latin1_upper c = [c]).
Proof.
  unfold latin1_upper.
  destruct (N.leb_spec 97 c), (N.leb_spec c 122); simpl;
    try (left; split; [lia|done]);
    (destruct (N.eqb_spec c 0xDF); [right; left; done|]);
    (destruct (N.eqb_spec c 0xB5); [right; right; left; done|]);
    (destruct (N.eqb_spec c 0xFF); [right; right; right; left; done|]);
    destruct (N.leb_spec 0xE0 c), (N.leb_spec c 0xFE),
      (N.eqb_spec c 0xF7); simpl;
    try (right; right; right; right; left; split; [lia|done]);
    right; right; right; right; right; repeat split; try done; lia.
Qed.

Lemma latin1_upper_table : UpperCaseTable latin1_upper.
Proof.
  assert (∀ c d, d ∈ latin1_upper c →
                 (d = c ∧ latin1_upper c = [c])
                 ∨ ((65 ≤ d ≤ 90 ∨ d = 0x39C ∨ d = 0x178 ∨ 0xC0 ≤ d ≤ 0xDE)%N
                    ∧ (97 ≤ c ≤ 122 ∨ 0xB5 ≤ c ≤ 0xFF)%N)) as Hout.
  { intros c d Hin.
    destruct (latin1_upper_cases c)
      as [[Hr E]|[[Hr E]|[[Hr E]|[[Hr E]|[(Hr & Hr' & E)
                                          |(_ & _ & _ & _ & _ & E)]]]]];
      rewrite E in Hin |- *;
      rewrite ?elem_of_cons, elem_of_nil in Hin;
      [right|right|right|right|right|left]; try (split; [|done]); lia. }
  assert (∀ d, (65 ≤ d ≤ 90 ∨ d = 0x39C ∨ d = 0x178 ∨ 0xC0 ≤ d ≤ 0xDE)%N →
               latin1_upper d = [d]) as Hfix.
  { intros d Hd.
    destruct (latin1_upper_cases d)
      as [[? _]|[[? _]|[[? _]|[[? _]|[(? & ? & _)|(_ & _ & _ & _ & _ & ->)]]]]];
      try lia; done. }
  assert (∀ c, (c < 97 ∨ 122 < c)%N → (c < 0xB5 ∨ 0xFF < c)%N →
               latin1_upper c = [c]) as Hid.
  { intros c H1 H2.
    destruct (latin1_upper_cases c)
      as [[? _]|[[? _]|[[? _]|[[? _]|[(? & ? & _)|(_ & _ & _ & _ & _ & ->)]]]]];
      try lia; done. }
  split.
  - intros c H%isWhiteSpace_cases. apply Hid; lia.
  - intros c H%isDashVariant_cases. apply Hid; lia.
  - reflexivity.
  - intros c H%isSurrogate_bounds. apply Hid; lia.
  - intros c.
    destruct (latin1_upper_cases c)
      as [[? ->]|[[? ->]|[[? ->]|[[? ->]|[(? & ? & ->)|(_ & _ & _ & _ & _ & ->)]]]]];
      done.
  - intros c d Hc [[-> _]|[Hd _]]%Hout; [done|].
    apply not_true_is_false. intros H%isWhiteSpace_cases. lia.
  - intros c d Hc [[-> _]|[Hd _]]%Hout; [done|].
    apply not_true_is_false. intros H%isDashVariant_cases. lia.
  - intros c d Hc [[-> _]|[Hd _]]%Hout; [done|].
    apply not_true_is_false. intros H%isSurrogate_bounds. lia.
  - intros c d Hc [[-> _]|[Hd _]]%Hout; lia.
  - intros c. destruct (latin1_upper c) as [|d l] eqn:E; [done|].
    assert (Forall (λ x, latin1_upper x = [x]) (d :: l)) as Hall.
    { apply list.Forall_forall. intros x Hx. rewrite <- E in Hx.
      apply Hout in Hx as [[-> ?]|[Hx _]]; [done|by apply Hfix]. }
    clear E. induction Hall as [|x xs Hx _ IH]; [done|].
    simpl. by rewrite Hx, IH.
Qed.

(** C7: the Text Normalizer is a total function; with the upper-case table
    of the runtime, normalizing a string of code units twice gives what
    normalizing once gives, and two renderings that differ only in dash
    variants, in whitespace runs, in leading or trailing whitespace or in
    letter case have the same normalized form; hence the Row Locator finds
    the same index, for such renderings of the patterns and of the lines,
    and the lines it returns are renderings of one another. *)
Theorem norm_canonical (UM : N → list N) :
  UpperCaseTable UM →
  (∀ s, codeUnits s → norm UM (norm UM s) = norm UM s)
  ∧ (∀ s t, sameRendering UM s t → norm UM s = norm UM t)
  ∧ (∀ ps ps' ls ls',
       Forall2 (sameRendering UM) ps ps' →
       Forall2 (sameRendering UM) ls ls' →
       targetIndex UM ps ls = targetIndex UM ps' ls'
       ∧ findTargetLineWith UM ps' ls = findTargetLineWith UM ps ls
       ∧ option_Forall2 (sameRendering UM)
           (findTargetLineWith UM ps ls) (findTargetLineWith UM ps' ls')).
Proof.
  intros table.
  split; [apply norm_idempotent, table|].
  split; [apply norm_sameRendering, table|].
  intros ps ps' ls ls' Hps Hls.
  pose proof (map_norm_renderings UM table ps ps' Hps) as Eps.
  pose proof (map_norm_renderings UM table ls ls' Hls) as Els.
  split; [by apply targetIndex_renderings|].
  unfold findTargetLineWith.
  rewrite (targetIndex_renderings UM ps' ps ls ls) by done.
  split; [done|].
  rewrite (targetIndex_renderings UM ps ps' ls ls') by done.
  destruct (targetIndex UM ps' ls') as [i|]; [|constructor].
  destruct (ls !! i) as [l|] eqn:El.
  - destruct (Forall2_lookup_l _ _ _ _ _ Hls El) as (l' & -> & Hll).
    by constructor.
  - rewrite lookup_ge_None in El.
    assert (length ls = length ls') as Hlen by (by eapply list.Forall2_length).
    rewrite Hlen in El.
    apply lookup_ge_None in El. rewrite El. constructor.
Qed.

Lemma norm_canonical_witness :
  let s := lit "  e" ++ [EN_DASH] ++ lit "mini   Nasdaq-100 " in
  norm latin1_upper (norm latin1_upper s) = norm latin1_upper s
  ∧ norm latin1_upper s = norm latin1_upper (lit "E-MINI NASDAQ-100").
Proof.
  intros s.
  destruct (norm_canonical latin1_upper latin1_upper_table) as (Hid & Hsame & _).
  split.
  - apply Hid. unfold codeUnits. apply list.Forall_forall. intros c Hc.
    apply list_elem_of_In in Hc. vm_compute in Hc.
    repeat (destruct Hc as [<-|Hc]; [done|]). done.
  - apply Hsame.
    eapply same_trans; [apply (same_leading latin1_upper (lit "  ")); done|].
    eapply same_trans;
      [apply (same_dash latin1_upper (lit "e") EN_DASH
                (lit "mini   Nasdaq-100 ")); done|].
    eapply same_trans;
      [apply (same_whitespace_run latin1_upper (lit "e-mini") (lit "   ")
                (lit " ") (lit "Nasdaq-100 ")); done|].
    eapply same_trans;
      [apply (same_trailing latin1_upper (lit " ") (lit "e-mini Nasdaq-100"));
       done|].
    apply same_case; [| |vm_compute; reflexivity];
      unfold codeUnits; apply list.Forall_forall; intros c Hc;
      apply list_elem_of_In in Hc; vm_compute in Hc;
      repeat (destruct Hc as [<-|Hc]; [done|]); done.
Defined.

(** * Further properties *)

(** ** Date Decoder: decoding twice *)

Lemma toISO_other md :
  matchClasses reISODate md = false → matchClasses reYYMMDD md = false →
  testSlashDate md = false → toISO md = md.
Proof.
  intros H1 H2 H3. unfold toISO. rewrite H1, H2, H3.
  by destruct (bool_decide _).
Qed.

Lemma toISO_ISOShape md : ISOShape md → toISO md = md.
Proof.
  intros H%ISOShape_iff. unfold toISO. rewrite H. by destruct (bool_decide _).
Qed.

Lemma digits_app n m a b : digits n a → digits m b → digits (n + m) (a ++ b).
Proof.
  intros [<- Ha] [<- Hb]. split; [by rewrite length_app|].
  by rewrite forallb_app, Ha, Hb.
Qed.

Lemma expandYear_digits yy : digits 2 yy → digits 4 (expandYear yy).
Proof.
  intros Hy. unfold expandYear.
  apply (digits_app 2 2); [|done]. by destruct (_ <? _)%Z.
Qed.

(** What [toISO] returns, by the shape of the token. *)
Lemma toISO_cases md :
  toISO md = md
  ∨ ISOShape (toISO md)
  ∨ ∃ m d yr, digits 2 m ∧ digits 2 d ∧ digits 3 yr
              ∧ toISO md = yr ++ [HYPHEN] ++ m ++ [HYPHEN] ++ d.
Proof.
  destruct (matchClasses reISODate md) eqn:E1.
  { left. by apply toISO_ISOShape, ISOShape_iff. }
  destruct (matchClasses reYYMMDD md) eqn:E2.
  { right. left. apply YYMMDDShape_iff in E2 as (yy & mm & dd & Hy & Hm & Hd & ->).
    rewrite toISO_yymmdd by done.
    exists (expandYear yy), mm, dd. by split; [apply expandYear_digits|]. }
  destruct (testSlashDate md) eqn:E3; [|left; by apply toISO_other].
  assert (∃ k, (2 ≤ k ≤ 4)%nat ∧ SlashShape k md)
    as (k & Hk & m & d & yr & Hm & Hd & Hyr & ->).
  { unfold testSlashDate in E3.
    apply orb_prop in E3 as [[E|E]%orb_prop|E]; apply SlashShape_iff in E;
      eexists; (split; [|exact E]); lia. }
  rewrite (toISO_slash m d yr k) by done.
  assert (k = 2 ∨ k = 3 ∨ k = 4)%nat as [->|[->| ->]] by lia; simpl.
  - right. left. exists (expandYear yr), m, d.
    by split; [apply expandYear_digits|].
  - right. right. by exists m, d, yr.
  - right. left. by exists yr, m, d.
Qed.

Lemma three_digit_year_fixed m d yr :
  digits 2 m → digits 2 d → digits 3 yr →
  toISO (yr ++ [HYPHEN] ++ m ++ [HYPHEN] ++ d)
  = yr ++ [HYPHEN] ++ m ++ [HYPHEN] ++ d.
Proof.
  intros [Hm _] [Hd _] [Hyr Hdig].
  destruct yr as [|y1 [|y2 [|y3 [|]]]]; try done.
  destruct m as [|m1 [|m2 [|]]]; try done.
  destruct d as [|d1 [|d2 [|]]]; try done.
  apply toISO_other.
  - destruct (matchClasses reISODate _) eqn:E; [|done].
    by apply matchClasses_length in E.
  - destruct (matchClasses reYYMMDD _) eqn:E; [|done].
    by apply matchClasses_length in E.
  - unfold testSlashDate.
    destruct (matchClasses (reSlashDate 2) _) eqn:E2;
      [by apply matchClasses_length in E2|].
    destruct (matchClasses (reSlashDate 4) _) eqn:E4;
      [by apply matchClasses_length in E4|].
    rewrite orb_false_r. simpl in Hdig.
    apply andb_prop in Hdig as [_ [_ [H3 _]%andb_prop]%andb_prop].
    cbn [reSlashDate repeat app matchClasses orb].
    apply andb_false_iff. right. apply andb_false_iff. right.
    apply andb_false_iff. left.
    unfold isUnit. rewrite N.eqb_sym. by apply digit_not_slash.
Qed.

(** X1: decoding a decoded date changes nothing: toISO (toISO md) = toISO md
    for every token. *)
Theorem toISO_idempotent (md : jsstring) : toISO (toISO md) = toISO md.
Proof.
  destruct (toISO_cases md) as [E|[H|(m & d & yr & Hm & Hd & Hyr & ->)]].
  - by rewrite !E.
  - by apply toISO_ISOShape.
  - by apply three_digit_year_fixed.
Qed.

(** ** Row Locator: the third pattern *)

Lemma substring_trans a b c : substring a b → substring b c → substring a c.
Proof.
  intros (x & y & ->) (u & v & ->). exists (u ++ x), (y ++ v).
  by rewrite <- !app_assoc.
Qed.

Lemma norm_micro_pattern UM :
  norm UM (lit "MICRO E-MINI NASDAQ-100")
  = CodePointsToString (flat_map UM (lit "MICRO "))
    ++ norm UM (lit "E-MINI NASDAQ-100").
Proof.
  unfold norm, toUpperCase.
  assert (StringToCodePoints
            (trim (collapseWhitespace (unifyDashes (lit "MICRO E-MINI NASDAQ-100"))))
          = lit "MICRO " ++ lit "E-MINI NASDAQ-100") as ->
    by (vm_compute; reflexivity).
  assert (StringToCodePoints
            (trim (collapseWhitespace (unifyDashes (lit "E-MINI NASDAQ-100"))))
          = lit "E-MINI NASDAQ-100") as ->
    by (vm_compute; reflexivity).
  unfold CodePointsToString. by rewrite !flat_map_app.
Qed.

(** X2: the third candidate pattern never decides.  Its normalized form
    contains that of the second pattern, which is tried before it, so every
    line it hits is hit by the second pattern: for every upper-case table and
    every report, findTargetLine returns what it returns with the first two
    patterns alone. *)
Theorem third_pattern_never_decides (UM : N → list N) (lines : list jsstring) :
  (∀ l, hits UM (lit "MICRO E-MINI NASDAQ-100") l
        → hits UM (lit "E-MINI NASDAQ-100") l)
  ∧ findTargetLine UM lines
    = findTargetLineWith UM
        [ lit "NASDAQ MINI - CHICAGO MERCANTILE EXCHANGE";
          lit "E-MINI NASDAQ-100" ] lines.
Proof.
  assert (∀ l, hits UM (lit "MICRO E-MINI NASDAQ-100") l
               → hits UM (lit "E-MINI NASDAQ-100") l) as Hsub.
  { intros l. unfold hits. apply substring_trans.
    rewrite norm_micro_pattern. eexists _, []. by rewrite app_nil_r. }
  split; [done|].
  unfold findTargetLine, findTargetLineWith, targetIndex, candidatePatterns.
  cbn [firstPatternIndex].
  destruct (findIndex _ _) as [i|]; [done|].
  destruct (findIndex (λ L, includes L (norm UM (lit "E-MINI NASDAQ-100"))) _)
    as [i|] eqn:E2; [done|].
  assert (findIndex
            (λ L, includes L (norm UM (lit "MICRO E-MINI NASDAQ-100")))
            (map (norm UM) lines) = None) as ->; [|done].
  apply findIndex_None. apply findIndex_None in E2.
  apply Forall_map. apply Forall_map in E2.
  eapply list.Forall_impl; [exact E2|]. intros l Hl. simpl in *.
  apply not_hits_includes. apply not_hits_includes in Hl. auto.
Qed.

(** ** The lines of a report *)

Lemma splitLinesFrom_cons cur c r :
  splitLinesFrom cur (c :: r)
  = if (c =? LF)%N then cur :: splitLinesFrom [] r
    else match r with
         | d :: r' =>
             if (c =? CR)%N && (d =? LF)%N then cur :: splitLinesFrom [] r'
             else splitLinesFrom (cur ++ [c]) r
         | [] => splitLinesFrom (cur ++ [c]) r
         end.
Proof. reflexivity. Qed.

Lemma splitLinesFrom_facts n :
  ∀ s cur, (length s ≤ n)%nat →
    splitLinesFrom cur s ≠ []
    ∧ joinWith LF (splitLinesFrom cur s) = cur ++ crlfToLf s
    ∧ length (splitLinesFrom cur s) = S (lineFeeds s)
    ∧ (LF ∉ cur → Forall (λ l, LF ∉ l) (splitLinesFrom cur s)).
Proof.
  induction n as [|n IH]; intros s cur Hlen.
  { destruct s; [|simpl in Hlen; lia]. simpl.
    rewrite app_nil_r. repeat split; try done. intros H. by constructor. }
  destruct s as [|c r].
  { simpl. rewrite app_nil_r. repeat split; try done. intros H. by constructor. }
  simpl in Hlen. rewrite splitLinesFrom_cons.
  assert (∀ cur', let X := splitLinesFrom cur' r in
            X ≠ [] ∧ joinWith LF X = cur' ++ crlfToLf r
            ∧ length X = S (lineFeeds r)
            ∧ (LF ∉ cur' → Forall (λ l, LF ∉ l) X)) as IHr
    by (intros cur'; apply IH; lia).
  assert (∀ X, X ≠ [] → joinWith LF (cur :: X) = cur ++ LF :: joinWith LF X)
    as Hjoin by (by intros [|x X]).
  unfold lineFeeds. cbn [List.filter].
  change (N.eqb LF c) with (LF =? c)%N. rewrite (N.eqb_sym LF c).
  destruct (N.eqb_spec c LF) as [->|Hc].
  { destruct (IHr []) as (Hne & Hj & Hl & Hf).
    rewrite Hjoin, Hj by done. split; [done|]. split.
    { by destruct r. }
    split; [simpl; by rewrite Hl|].
    intros Hcur. constructor; [done|]. apply Hf, not_elem_of_nil. }
  assert (crlfToLf (c :: r) = c :: crlfToLf r ∨
          ∃ r', r = LF :: r' ∧ c = CR) as [Hcr|(r' & -> & ->)].
  { destruct r as [|d r']; [by left|]. simpl.
    destruct (N.eqb_spec c CR) as [->|?]; [|by left].
    destruct (N.eqb_spec d LF) as [->|?]; [right; by eexists|by left]. }
  - assert (splitLinesFrom (cur ++ [c]) r
            = match r with
              | d :: r' => if (c =? CR)%N && (d =? LF)%N
                           then cur :: splitLinesFrom [] r'
                           else splitLinesFrom (cur ++ [c]) r
              | [] => splitLinesFrom (cur ++ [c]) r
              end) as <-.
    { destruct r as [|d r']; [done|]. simpl in Hcr.
      destruct ((c =? CR)%N && (d =? LF)%N) eqn:E; [|done].
      injection Hcr as Hc' _. apply andb_prop in E as [->%N.eqb_eq _]. done. }
    destruct (IHr (cur ++ [c])) as (Hne & Hj & Hl & Hf).
    rewrite Hj, Hcr, <- app_assoc. split; [done|]. split; [done|].
    split; [done|]. intros Hcur. apply Hf.
    rewrite elem_of_app, list_elem_of_singleton. intros [?|?]; done.
  - change ((CR =? CR)%N && (LF =? LF)%N) with true. cbn iota.
    assert (length r' ≤ n)%nat as Hr' by (simpl in Hlen; lia).
    destruct (IH r' [] Hr') as (Hne & Hj & Hl & Hf).
    rewrite Hjoin, Hj by done. split; [done|]. split; [done|].
    split; [simpl; by rewrite Hl|].
    intros Hcur. constructor; [done|]. apply Hf, not_elem_of_nil.
Qed.

Lemma crlfToLf_cons c d r :
  crlfToLf (c :: d :: r)
  = if (c =? CR)%N && (d =? LF)%N then LF :: crlfToLf r
    else c :: crlfToLf (d :: r).
Proof. reflexivity. Qed.

Lemma crlfToLf_no_CR s : CR ∉ s → crlfToLf s = s.
Proof.
  induction s as [|c r IH]; [done|].
  rewrite not_elem_of_cons. intros [Hc Hr].
  destruct r as [|d r']; [done|].
  rewrite crlfToLf_cons, (proj2 (N.eqb_neq c CR)) by done.
  simpl andb. cbn iota. by rewrite IH.
Qed.

(** X3: the lines of a report.  Splitting a text on CR LF or LF and joining
    the lines with LF gives the text with every CR LF replaced by LF (the
    text itself when it has no CR); there is one line more than line feeds,
    and no line holds a line feed.  The lines kept for the search are not
    blank, so the line that findTargetLine returns is never the empty
    string: main throws its not-found error exactly when findTargetLine
    returns null. *)
Theorem report_lines (rawText : jsstring) :
  joinWith LF (splitLinesFrom [] rawText) = crlfToLf rawText
  ∧ (CR ∉ rawText → joinWith LF (splitLinesFrom [] rawText) = rawText)
  ∧ length (splitLinesFrom [] rawText) = S (lineFeeds rawText)
  ∧ (∀ l, l ∈ reportLines rawText → (LF ∉ l) ∧ trim l ≠ [] ∧ l ≠ [])
  ∧ (∀ UM, findTargetLine UM (reportLines rawText) ≠ Some []).
Proof.
  destruct (splitLinesFrom_facts (length rawText) rawText nil (le_n _))
    as (_ & Hj & Hl & Hf).
  assert (∀ l, l ∈ reportLines rawText → (LF ∉ l) ∧ trim l ≠ [] ∧ l ≠ []) as Hin.
  { intros l Hl'. unfold reportLines in Hl'.
    apply list_elem_of_In, filter_In in Hl' as [Hl' Hnb].
    apply list_elem_of_In in Hl'.
    specialize (Hf (not_elem_of_nil _)). rewrite list.Forall_forall in Hf.
    split; [by apply Hf|]. unfold nonBlank in Hnb.
    apply negb_true_iff, bool_decide_eq_false in Hnb.
    split; [done|]. by intros ->. }
  split; [done|]. split; [intros H; by rewrite Hj, crlfToLf_no_CR|].
  split; [done|]. split; [done|].
  intros UM Hfind. unfold findTargetLine, findTargetLineWith in Hfind.
  destruct (targetIndex _ _ _); [|done].
  apply list_elem_of_lookup_2, Hin in Hfind. by destruct Hfind as (_ & _ & ?).
Qed.

(** ** One run after another *)

Lemma run_success UM inp w :
  (run UM inp w).2 = 0 →
  ∃ prev b l r,
    outFile w = JsonOf <$> prev
    ∧ fetched inp = Response 200 b
    ∧ findTargetLine UM (reportLines b) = Some l
    ∧ parseTargetLine l = Return r
    ∧ (run UM inp w).1
      = {| outFile := Some (JsonOf (assembleOutput prev inp r));
           dataDir := true |}.
Proof.
  intros H0.
  assert (¬ fatal UM inp w) as Hnf.
  { intros Hf. unfold run in H0.
    destruct (main_outcome UM inp w) as [[_ [e He]]|[Hn _]]; [|done].
    by rewrite He in H0. }
  assert (∃ prev, outFile w = JsonOf <$> prev) as [prev Hf].
  { destruct (outFile w) as [[a|]|] eqn:E.
    - by exists (Some a).
    - destruct Hnf. by apply fatal_snapshot.
    - by exists None. }
  destruct (fetched inp) as [|s b] eqn:Hq;
    [destruct Hnf; by apply fatal_request|].
  destruct (decide (s = 200)) as [->|Hs];
    [|destruct Hnf; by eapply fatal_status].
  destruct (findTargetLine UM (reportLines b)) as [[|c l]|] eqn:Hl;
    [destruct Hnf; by eapply fatal_empty_line|
    |destruct Hnf; by eapply fatal_not_found].
  destruct (parseTargetLine (c :: l)) as [r|e] eqn:Hr;
    [|destruct Hnf; by eapply fatal_parse].
  exists prev, b, (c :: l), r. repeat split; try done.
  unfold run, reportLines in *.
  destruct prev; simpl in Hf; run_main Hf Hq Hl Hr; reflexivity.
Qed.

Lemma previousValues_assembled prev inp r d :
  previousValues (Some (assembleOutput prev inp r)) d
  = if negb (bool_decide (reportDate r = []))
       && negb (bool_decide (reportDate r = d))
    then {| prevLong := Some (nonCommLong r);
            prevShort := Some (nonCommShort r);
            prevNet := Some (numSub (nonCommLong r) (nonCommShort r)) |}
    else noPrevValues.
Proof.
  unfold previousValues, assembleOutput. cbn [cot weekEnding rows].
  by destruct (_ && _).
Qed.

(** X4: one run after another.  When two runs succeed one after the other,
    the second writes the rows Net, Long, Short in that order.  When the
    report date of the first run is not empty and differs from that of the
    second, and the values that the first run wrote are finite (a finite
    number is read back from the file as it was written), the previous values
    of the second run's rows are the values of the rows that the first run
    wrote.  They are all null when the two report dates are the same (a
    second run on the same report clears the previous values) or the first
    date is empty. *)
Theorem second_run_previous_values (UM : N → list N) (inp1 inp2 : Inputs)
    (w0 : World) :
  let w1 := (run UM inp1 w0).1 in
  let w2 := (run UM inp2 w1).1 in
  (run UM inp1 w0).2 = 0 → (run UM inp2 w1).2 = 0 →
  ∃ c1 c2,
    writtenCot w1 = Some c1 ∧ writtenCot w2 = Some c2
    ∧ map label (rows c1) = [labelNet; labelLong; labelShort]
    ∧ map label (rows c2) = [labelNet; labelLong; labelShort]
    ∧ (weekEnding c1 ≠ [] → weekEnding c1 ≠ weekEnding c2 →
       Forall (λ r, isFinite (value r) = true) (rows c1) →
       map prev (rows c2) = map (λ r, Some (value r)) (rows c1))
    ∧ (weekEnding c1 = [] ∨ weekEnding c1 = weekEnding c2 →
       map prev (rows c2) = [None; None; None]).
Proof.
  intros w1 w2 H1 H2.
  destruct (run_success UM inp1 w0 H1) as (prev0 & b1 & l1 & r1 & _ & _ & _ & _ & E1).
  destruct (run_success UM inp2 w1 H2) as (prev1 & b2 & l2 & r2 & Hf & _ & _ & _ & E2).
  subst w2. rewrite E2. subst w1. rewrite E1 in Hf |- *. simpl in Hf.
  assert (prev1 = Some (assembleOutput prev0 inp1 r1)) as ->
    by (destruct prev1; simplify_eq/=; done).
  eexists _, _. split; [reflexivity|]. split; [reflexivity|].
  split; [done|]. split; [done|].
  cbn [assembleOutput cot weekEnding rows map prev value].
  rewrite previousValues_assembled. split.
  - intros Hne Hd _. by rewrite !bool_decide_eq_false_2.
  - intros [He|He].
    + by rewrite (bool_decide_eq_true_2 _ He).
    + rewrite (bool_decide_eq_true_2 (_ = reportDate r2) He).
      by rewrite andb_false_r.
Qed.

Lemma second_run_previous_values_witness :
  let w1 := (run latin1_upper scenarioInputs firstRun).1 in
  let w2 := (run latin1_upper nextWeekInputs w1).1 in
  ∃ c2, writtenCot w2 = Some c2
        ∧ map prev (rows c2)
          = [Some (Finite 10000); Some (Finite 30000); Some (Finite 20000)].
Proof.
  intros w1 w2.
  destruct (second_run_previous_values latin1_upper scenarioInputs
              nextWeekInputs firstRun)
    as (c1 & c2 & Hc1 & Hc2 & _ & _ & Hcopy & _);
    [vm_compute; reflexivity|vm_compute; reflexivity|].
  exists c2. split; [exact Hc2|].
  fold w1 in Hc1. fold w1 w2 in Hc2.
  vm_compute in Hc1, Hc2. injection Hc1 as <-. injection Hc2 as <-.
  rewrite Hcopy; [reflexivity|discriminate|discriminate|].
  repeat constructor.
Defined.

(** ** Fixed-width parsing: which columns are returned *)

Lemma probePairs_columns parts :
  probePairs parts columnPairs
  = if positiveColumn parts 2 || positiveColumn parts 3
    then Some (toNumber (parts !! 2%nat), toNumber (parts !! 3%nat))
    else if positiveColumn parts 3 || positiveColumn parts 4
    then Some (toNumber (parts !! 3%nat), toNumber (parts !! 4%nat))
    else if positiveColumn parts 4 || positiveColumn parts 5
    then Some (toNumber (parts !! 4%nat), toNumber (parts !! 5%nat))
    else if positiveColumn parts 5 || positiveColumn parts 6
    then Some (toNumber (parts !! 5%nat), toNumber (parts !! 6%nat))
    else None.
Proof. reflexivity. Qed.

(** X5: which columns the fixed-width parser returns.  On a line of five
    columns or more, the parser fails to infer the columns exactly when none
    of the columns 2 to 6 decodes to a positive number.  When column 2 is
    positive the record holds columns 2 and 3; otherwise the first positive
    column among 3 to 6 is returned as nonCommShort, and nonCommLong is the
    column before it, which is not positive. *)
Theorem fixed_width_first_positive (line : jsstring) :
  let parts := splitColumns (trim line) in
  (5 ≤ length parts)%nat →
  (parseFixedWidth line
   = Throw (Error "Could not infer Non-Comm columns in fixed-width line")
   ↔ ∀ i, (2 ≤ i ≤ 6)%nat → positiveColumn parts i = false)
  ∧ (positiveColumn parts 2 = true →
     ∃ r, parseFixedWidth line = Return r
          ∧ nonCommLong r = toNumber (parts !! 2%nat)
          ∧ nonCommShort r = toNumber (parts !! 3%nat))
  ∧ (∀ i, (3 ≤ i ≤ 6)%nat →
       (∀ j, (2 ≤ j < i)%nat → positiveColumn parts j = false) →
       positiveColumn parts i = true →
       ∃ r, parseFixedWidth line = Return r
            ∧ nonCommLong r = toNumber (parts !! (i - 1)%nat)
            ∧ numLt (Finite 0) (nonCommLong r) = false
            ∧ nonCommShort r = toNumber (parts !! i)).
Proof.
  intros parts H5. rewrite parseFixedWidth_unfold. fold parts.
  rewrite (proj2 (Nat.ltb_ge _ _)) by done.
  destruct (first_two_columns parts H5) as (m & d & -> & ->).
  rewrite probePairs_columns.
  split; [|split].
  - split.
    + intros H i Hi.
      assert (i = 2 ∨ i = 3 ∨ i = 4 ∨ i = 5 ∨ i = 6)%nat
        as [->|[->|[->|[->| ->]]]] by lia;
        destruct (positiveColumn parts 2), (positiveColumn parts 3),
          (positiveColumn parts 4), (positiveColumn parts 5),
          (positiveColumn parts 6); done.
    + intros H.
      rewrite (H 2%nat), (H 3%nat), (H 4%nat), (H 5%nat), (H 6%nat) by lia.
      done.
  - intros ->. simpl. eexists. by split.
  - intros i Hi Hbefore Hpos.
    assert (i = 3 ∨ i = 4 ∨ i = 5 ∨ i = 6)%nat as [->|[->|[->| ->]]] by lia.
    + rewrite (Hbefore 2%nat), Hpos by lia. simpl.
      eexists. split; [done|]. repeat split. apply (Hbefore 2%nat). lia.
    + rewrite (Hbefore 2%nat), (Hbefore 3%nat), Hpos by lia. simpl.
      eexists. split; [done|]. repeat split. apply (Hbefore 3%nat). lia.
    + rewrite (Hbefore 2%nat), (Hbefore 3%nat), (Hbefore 4%nat), Hpos by lia.
      simpl. eexists. split; [done|]. repeat split.
      apply (Hbefore 4%nat). lia.
    + rewrite (Hbefore 2%nat), (Hbefore 3%nat), (Hbefore 4%nat),
        (Hbefore 5%nat), Hpos by lia.
      simpl. eexists. split; [done|]. repeat split.
      apply (Hbefore 5%nat). lia.
Qed.

Lemma fixed_width_first_positive_witness :
  ∃ r, parseFixedWidth (lit "NASDAQ MINI   250805   0   0  12  7") = Return r
       ∧ nonCommLong r = Finite 0 ∧ nonCommShort r = Finite 12.
Proof.
  set (line := lit "NASDAQ MINI   250805   0   0  12  7").
  assert (5 ≤ length (splitColumns (trim line)))%nat as H5
    by (vm_compute; lia).
  destruct (fixed_width_first_positive line H5) as (_ & _ & Hfirst).
  destruct (Hfirst 4%nat) as (r & Hr & HL & _ & HS).
  - lia.
  - intros j Hj. assert (j = 2 ∨ j = 3)%nat as [->| ->] by lia;
      vm_compute; reflexivity.
  - vm_compute. reflexivity.
  - exists r. split; [exact Hr|]. rewrite HL, HS. vm_compute. done.
Defined.

(** ** Fixed-width parsing: the columns *)

Lemma span_dropWhile f s : (span f s).1 ++ dropWhile f s = s.
Proof.
  induction s as [|c s IH]; simpl; [done|].
  destruct (f c); [|done]. destruct (span f s). simpl in *. by rewrite IH.
Qed.

Lemma dropWhile_length f s : (length (dropWhile f s) ≤ length s)%nat.
Proof.
  induction s as [|c s IH]; simpl; [done|]. destruct (f c); simpl; lia.
Qed.

Lemma splitRunsFrom_skipping f cur s :
  splitRunsFrom f true cur s = splitRunsFrom f false cur (dropWhile f s).
Proof.
  induction s as [|c s IH]; simpl; [done|].
  destruct (f c) eqn:E; [done|]. simpl. by rewrite E.
Qed.

Lemma splitRunsFrom_nonempty f b cur s : splitRunsFrom f b cur s ≠ [].
Proof.
  revert b cur. induction s as [|c r IH]; intros b cur; simpl; [done|].
  destruct (f c); [|apply IH]. destruct b; [apply IH|].
  destruct r as [|d r']; [apply IH|]. destruct (f d); [done|apply IH].
Qed.

Lemma splitRunsFrom_weave f n :
  ∀ s cur, (length s ≤ n)%nat →
    ∃ seps,
      length (splitRunsFrom f false cur s) = S (length seps)
      ∧ Forall (λ sep, (2 ≤ length sep)%nat ∧ forallb f sep = true) seps
      ∧ weave (splitRunsFrom f false cur s) seps = cur ++ s.
Proof.
  induction n as [|n IH]; intros s cur Hlen.
  { destruct s; [|simpl in Hlen; lia]. exists []. simpl.
    by rewrite app_nil_r. }
  destruct s as [|c r]; [exists []; simpl; by rewrite app_nil_r|].
  simpl in Hlen.
  assert (∃ seps,
            length (splitRunsFrom f false (cur ++ [c]) r) = S (length seps)
            ∧ Forall (λ sep, (2 ≤ length sep)%nat ∧ forallb f sep = true) seps
            ∧ weave (splitRunsFrom f false (cur ++ [c]) r) seps
              = cur ++ c :: r) as Hkeep.
  { destruct (IH r (cur ++ [c])) as (seps & ? & ? & Hw); [lia|].
    exists seps. by rewrite Hw, <- app_assoc. }
  simpl. destruct (f c) eqn:Ec; [|done].
  destruct r as [|d r']; [done|].
  destruct (f d) eqn:Ed; [|done].
  rewrite splitRunsFrom_skipping.
  destruct (IH (dropWhile f (d :: r')) []) as (seps & Hl & Hs & Hw).
  { pose proof (dropWhile_length f (d :: r')). simpl in *. lia. }
  exists ((c :: (span f (d :: r')).1) :: seps).
  split; [cbn [length]; by rewrite Hl|].
  pose proof (span_forallb f (d :: r')) as Hall.
  pose proof (span_dropWhile f (d :: r')) as Happ.
  split.
  - constructor; [|done]. split.
    + simpl. rewrite Ed. destruct (span f r'). simpl. lia.
    + change (forallb f (c :: (span f (d :: r')).1))
        with (f c && forallb f (span f (d :: r')).1).
      by rewrite Ec, Hall.
  - cbn [weave]. destruct (splitRunsFrom f false [] (dropWhile f (d :: r')))
      as [|p ps] eqn:E; [done|].
    rewrite Hw. cbn [app]. by rewrite Happ.
Qed.

Lemma splitRunsFrom_singleSpaced cur s :
  singleSpaced s → splitRunsFrom isWhiteSpace false cur s = [cur ++ s].
Proof.
  revert cur. induction s as [|c r IH]; intros cur; simpl.
  - by rewrite app_nil_r.
  - intros [Hc Hr]. rewrite IH by done. rewrite <- app_assoc. simpl.
    destruct (isWhiteSpace c); [|done]. destruct r as [|d r']; [done|].
    simpl in Hc. by rewrite Hc.
Qed.

(** X6: the columns of a fixed-width line.  The columns that
    split(/\s{2,}/) returns, put back together with the separators between
    them, are the string that was split: there is one column more than
    separators, and each separator is a run of two whitespace units or more.
    A string in which no two whitespace units follow one another is one
    column. *)
Theorem splitColumns_weave (s : jsstring) :
  (∃ seps,
     length (splitColumns s) = S (length seps)
     ∧ Forall (λ sep, (2 ≤ length sep)%nat ∧ forallb isWhiteSpace sep = true)
         seps
     ∧ weave (splitColumns s) seps = s)
  ∧ (singleSpaced s ↔ splitColumns s = [s]).
Proof.
  split; [apply (splitRunsFrom_weave isWhiteSpace (length s) s []), le_n|].
  split; [apply (splitRunsFrom_singleSpaced [])|].
  intros Hs. unfold splitColumns in Hs.
  assert (∀ cur, splitRunsFrom isWhiteSpace false cur s = [cur ++ s]
                 → singleSpaced s) as H; [|by apply (H [])].
  clear Hs. induction s as [|c r IH]; intros cur; simpl; [done|].
  destruct (isWhiteSpace c) eqn:Ec.
  - destruct r as [|d r']; [done|].
    destruct (isWhiteSpace d) eqn:Ed.
    + intros [= _ Hrest]. rewrite Ed in Hrest.
      by apply splitRunsFrom_nonempty in Hrest.
    + intros H. split; [done|]. apply (IH (cur ++ [c])).
      by rewrite H, <- app_assoc.
  - intros H. split.
    + destruct r; [done|]. done.
    + apply (IH (cur ++ [c])). by rewrite H, <- app_assoc.
Qed.

(** ** Delimited parsing: lines without quotes, fields in quotes *)

Lemma csvStep_unquoted s st :
  DQUOTE ∉ s → inQuotes st = false →
  out (fold_left csvStep s st) ++ [cur (fold_left csvStep s st)]
  = out st ++ splitOn COMMA (cur st) s.
Proof.
  revert st. induction s as [|c r IH]; intros st; [done|].
  rewrite not_elem_of_cons. intros [Hc Hr] Hq. simpl.
  unfold csvStep at 2 4. rewrite (proj2 (N.eqb_neq c DQUOTE)) by done.
  rewrite Hq. simpl negb. rewrite andb_true_r.
  destruct (c =? COMMA)%N; rewrite IH by done; simpl; [|done].
  by rewrite <- app_assoc.
Qed.

Lemma csvStep_quoted s st :
  DQUOTE ∉ s → inQuotes st = true →
  fold_left csvStep s st
  = {| out := out st; cur := cur st ++ s; inQuotes := true |}.
Proof.
  revert st. induction s as [|c r IH]; intros st.
  - intros _ Hq. destruct st. simpl in *. by rewrite app_nil_r, Hq.
  - rewrite not_elem_of_cons. intros [Hc Hr] Hq. simpl.
    unfold csvStep at 2. rewrite (proj2 (N.eqb_neq c DQUOTE)) by done.
    rewrite Hq. simpl negb. rewrite andb_false_r.
    rewrite IH by done. simpl. by rewrite <- app_assoc.
Qed.

Lemma splitOn_nonempty sep cur s : splitOn sep cur s ≠ [].
Proof.
  revert cur. induction s as [|c r IH]; intros cur; simpl; [done|].
  destruct (c =? sep)%N; [done|apply IH].
Qed.

Lemma joinWith_cons sep l X :
  X ≠ [] → joinWith sep (l :: X) = l ++ sep :: joinWith sep X.
Proof. by destruct X. Qed.

Lemma joinWith_splitOn sep cur s : joinWith sep (splitOn sep cur s) = cur ++ s.
Proof.
  revert cur. induction s as [|c r IH]; intros cur; simpl.
  - by rewrite app_nil_r.
  - destruct (N.eqb_spec c sep) as [->|Hc].
    + rewrite joinWith_cons by apply splitOn_nonempty. by rewrite IH.
    + by rewrite IH, <- app_assoc.
Qed.

Lemma splitOn_Forall (P : N → Prop) sep cur s :
  Forall P cur → Forall P s → Forall (Forall P) (splitOn sep cur s).
Proof.
  revert cur. induction s as [|c r IH]; intros cur Hcur Hs; simpl.
  - by constructor.
  - apply list.Forall_cons in Hs as [Hc Hr]. destruct (c =? sep)%N.
    + constructor; [done|]. by apply IH.
    + apply IH; [|done]. apply Forall_app. split; [done|]. by constructor.
Qed.

Lemma trim_no_whitespace s :
  Forall (λ c, isWhiteSpace c = false) s → trim s = s.
Proof.
  intros Hs. unfold trim, trimStart.
  assert (dropWhile isWhiteSpace s = s) as ->.
  { destruct Hs as [|c r Hc _]; simpl; [done|]. by rewrite Hc. }
  induction Hs as [|c r Hc _ IH]; simpl; [done|].
  rewrite IH, Hc. by destruct r.
Qed.

Lemma map_trim_no_whitespace (fs : list jsstring) :
  Forall (Forall (λ c, isWhiteSpace c = false)) fs → map trim fs = fs.
Proof.
  induction 1 as [|f fs Hf _ IH]; cbn [map]; [done|].
  by rewrite IH, (trim_no_whitespace f Hf).
Qed.

(** X7: the delimited parser without quotes and inside quotes.  On a line
    that holds no double quote, parseCSVLine gives the fields of
    split(',') trimmed; joining the fields of split(',') with commas
    gives the line back, and so does joining the fields of parseCSVLine when
    the line holds no whitespace either.  A string without quotes put
    between two double quotes is one field, whatever commas it holds. *)
Theorem parseCSVLine_unquoted (line : jsstring) :
  DQUOTE ∉ line →
  parseCSVLine line = map trim (splitOn COMMA [] line)
  ∧ joinWith COMMA (splitOn COMMA [] line) = line
  ∧ (Forall (λ c, isWhiteSpace c = false) line →
     joinWith COMMA (parseCSVLine line) = line)
  ∧ parseCSVLine ([DQUOTE] ++ line ++ [DQUOTE]) = [trim line].
Proof.
  intros Hq.
  assert (parseCSVLine line = map trim (splitOn COMMA [] line)) as Hsplit.
  { unfold parseCSVLine. by rewrite csvStep_unquoted. }
  split; [done|]. split; [apply (joinWith_splitOn COMMA [])|]. split.
  - intros Hw. rewrite Hsplit.
    rewrite map_trim_no_whitespace; [apply (joinWith_splitOn COMMA [])|].
    by apply splitOn_Forall.
  - unfold parseCSVLine.
    change ([DQUOTE] ++ line ++ [DQUOTE]) with (DQUOTE :: (line ++ [DQUOTE])).
    cbn [fold_left]. rewrite fold_left_app.
    change (csvStep csvInit DQUOTE)
      with {| out := []; cur := []; inQuotes := true |}.
    rewrite (csvStep_quoted line); [|done|done]. reflexivity.
Qed.

Lemma parseCSVLine_unquoted_witness :
  parseCSVLine (lit "a, b ,c") = [lit "a"; lit "b"; lit "c"]
  ∧ parseCSVLine ([DQUOTE] ++ lit "a, b ,c" ++ [DQUOTE]) = [lit "a, b ,c"].
Proof.
  assert (DQUOTE ∉ lit "a, b ,c") as Hq.
  { intros H%list_elem_of_In. vm_compute in H. intuition discriminate. }
  destruct (parseCSVLine_unquoted (lit "a, b ,c") Hq) as (-> & _ & _ & ->).
  split; vm_compute; reflexivity.
Defined.
